(** * transformer-srl: inference and decoding pipeline

    A shallow embedding of
    - [srl_transformers/predictors.py]: the description renderer
      [make_srl_string], the instance splitter [tokens_to_instances] and the
      batching / regrouping loop of [predict_batch_json];
    - [srl_bert_verbatlas/models.py]: the frame part of [forward], the frame
      disambiguator [decode_frames] and [decode].

    Python exceptions are values of [result]. Scores (entries of float
    tensors) are rationals: the decoding code only compares them. *)

From Stdlib Require Import QArith.
From stdpp Require Import base option list strings gmap.

Open Scope string_scope.
Open Scope list_scope.

(** ** Exceptions *)

Inductive exn : Type :=
| IndexError
| KeyError
| ValueError
| TypeError
| AttributeError.

Inductive result (A : Type) : Type :=
| Ok (a : A)
| Raise (e : exn).
Arguments Ok {A} a.
Arguments Raise {A} e.

#[global] Instance result_ret : MRet result := @Ok.
#[global] Instance result_fmap : FMap result := λ A B f r,
  match r with
  | Ok a => Ok (f a)
  | Raise e => Raise e
  end.
#[global] Instance result_bind : MBind result := λ A B k r,
  match r with
  | Ok a => k a
  | Raise e => Raise e
  end.

(** [[f(x) for x in l]] where [f] may raise: the first exception wins. *)
Fixpoint traverse {A B} (f : A → result B) (l : list A) : result (list B) :=
  match l with
  | [] => Ok []
  | x :: l' => y ← f x; ys ← traverse f l'; Ok (y :: ys)
  end.

(** A [for] loop over [l] threading a state, any iteration may raise. *)
Fixpoint for_each {A S} (body : S → A → result S) (l : list A) (s : S)
  : result S :=
  match l with
  | [] => Ok s
  | x :: l' => s' ← body s x; for_each body l' s'
  end.

(** [l[i]] *)
Definition getitem {A} (l : list A) (i : nat) : result A :=
  match l !! i with
  | Some x => Ok x
  | None => Raise IndexError
  end.

(** [enumerate(l)] *)
Definition enumerate {A} (l : list A) : list (nat * A) :=
  zip (seq 0 (length l)) l.

(** ** Python string primitives *)

Module PyStr.

(** [s.startswith(p)] *)
Definition startswith (s p : string) : bool := String.prefix p s.

(** [s[n:]] *)
Fixpoint slice_from (n : nat) (s : string) : string :=
  match n, s with
  | 0, _ => s
  | S _, EmptyString => EmptyString
  | S k, String _ r => slice_from k r
  end.

(** [sep.join(l)] *)
Fixpoint join (sep : string) (l : list string) : string :=
  match l with
  | [] => EmptyString
  | [x] => x
  | x :: r => x +:+ sep +:+ join sep r
  end.

(** [s.replace(old, new)] for the empty [old]: [new] before every
    character and at the end. *)
Fixpoint replace_empty (s new : string) : string :=
  match s with
  | EmptyString => new
  | String c r => new +:+ String c (replace_empty r new)
  end.

(** Left-to-right, non-overlapping replacement; [skip] counts the
    characters of the current match still to be dropped. *)
Fixpoint replace_from (skip : nat) (s old new : string) : string :=
  match s with
  | EmptyString => EmptyString
  | String c r =>
      match skip with
      | S k => replace_from k r old new
      | 0 =>
          if String.prefix old s
          then new +:+ replace_from (String.length old - 1) r old new
          else String c (replace_from 0 r old new)
      end
  end.

(** [s.replace(old, new)] *)
Definition replace (s old new : string) : string :=
  match old with
  | EmptyString => replace_empty s new
  | _ => replace_from 0 s old new
  end.

End PyStr.

(** ** Description renderer ([SrlTransformersPredictor.make_srl_string]) *)

Module Renderer.
Import PyStr.

(** Loop state: [window] (emitted pieces) and [chunk] (open span buffer). *)
Definition state : Type := list string * list string.

(** [if chunk: window.append("[" + " ".join(chunk) + "]"); chunk = []] *)
Definition flush (window chunk : list string) : list string :=
  match chunk with
  | [] => window
  | _ :: _ => window ++ ["[" +:+ join " " chunk +:+ "]"]
  end.

(** One iteration of [for (token, tag) in zip(words, tags)]. *)
Definition step (frame : string) (st : state) (tt : string * string) : state :=
  let '(window, chunk) := st in
  let '(token, tag) := tt in
  if startswith tag "I-" then (window, chunk ++ [token])
  else
    let window := flush window chunk in
    if startswith tag "B-" then
      let tag := replace tag "V" frame in
      (window, [slice_from 2 tag +:+ ": " +:+ token])
    else if String.eqb tag "O" then (window ++ [token], [])
    else (window, []).

Definition run (frame : string) (st : state) (wts : list (string * string))
  : state := foldl (step frame) st wts.

Definition finish (st : state) : string :=
  join " " (flush st.1 st.2).

Definition make_srl_string (words tags : list string) (frame : string)
  : string := finish (run frame ([], []) (zip words tags)).

End Renderer.

(** ** Scores *)

(** Comparison of two scores, [x < y]. *)
Definition Qltb (x y : Q) : bool := negb (Qle_bool y x).

(** Scan of [argmax]: [best] is the running maximum, found at [best_i];
    a later element takes over only when strictly greater. *)
Fixpoint argmax_from (best_i : nat) (best : Q) (i : nat) (l : list Q) : nat :=
  match l with
  | [] => best_i
  | x :: r =>
      if Qltb best x then argmax_from i x (S i) r
      else argmax_from best_i best (S i) r
  end.

(** [a.argmax(axis=-1)] on one row: index of the first maximal entry;
    an empty row raises. *)
Definition argmax (l : list Q) : result nat :=
  match l with
  | [] => Raise ValueError
  | x :: r => Ok (argmax_from 0 x 1 r)
  end.

(** [k] is the position of the first maximum of [l]. *)
Definition first_max (l : list Q) (k : nat) : Prop :=
  ∃ x, l !! k = Some x
       ∧ (∀ j y, l !! j = Some y → (y <= x)%Q)
       ∧ (∀ j y, j < k → l !! j = Some y → (y < x)%Q).

(** [numpy.take(a, indices)] on one row *)
Definition np_take (a : list Q) (indices : list nat) : result (list Q) :=
  traverse (getitem a) indices.

(** ** Vocabulary, namespace [frames_labels]

    A non-padded namespace: the tokens in index order. *)

Module Vocabulary.

Definition t : Type := list string.

(** [vocab.get_token_from_index(i, namespace="frames_labels")] *)
Definition get_token_from_index (v : t) (i : nat) : result string :=
  match v !! i with
  | Some tok => Ok tok
  | None => Raise KeyError
  end.

(** [vocab.get_token_index(tok, namespace="frames_labels")] *)
Definition get_token_index (v : t) (tok : string) : result nat :=
  match list_find (λ x, x = tok) v with
  | Some (i, _) => Ok i
  | None => Raise KeyError
  end.

(** [set(vocab.get_token_to_index_vocabulary("frames_labels").keys())] *)
Definition label_set (v : t) : gset string := list_to_set v.

End Vocabulary.

(** ** The model ([SrlBertVerbatlas]) *)

Module Model.
Import Vocabulary.

(** The entries of [output_dict]; a key that is set only later is an
    [option]. Tensors are nested lists, batch first. *)
Record OutputDict : Type := {
  logits : list (list (list Q));
  frame_logits : list (list Q);
  class_probabilities : list (list (list Q));
  frame_probabilities : list (list Q);
  mask : list (list Z);
  words : list (list string);
  lemma : list string;
  verb : list (option string);
  wordpiece_offsets : list (list nat);
  tags : option (list (list string));
  frame_tags : option (list string);
  frame_loss : option Q;
  role_loss : option Q;
  loss : option Q
}.

Definition set_frame_tags (v : list string) (d : OutputDict) : OutputDict :=
  {| logits := logits d; frame_logits := frame_logits d;
     class_probabilities := class_probabilities d;
     frame_probabilities := frame_probabilities d; mask := mask d;
     words := words d; lemma := lemma d; verb := verb d;
     wordpiece_offsets := wordpiece_offsets d; tags := tags d;
     frame_tags := Some v;
     frame_loss := frame_loss d; role_loss := role_loss d; loss := loss d |}.

Definition set_tags (v : option (list (list string))) (d : OutputDict)
  : OutputDict :=
  {| logits := logits d; frame_logits := frame_logits d;
     class_probabilities := class_probabilities d;
     frame_probabilities := frame_probabilities d; mask := mask d;
     words := words d; lemma := lemma d; verb := verb d;
     wordpiece_offsets := wordpiece_offsets d; tags := v;
     frame_tags := frame_tags d;
     frame_loss := frame_loss d; role_loss := role_loss d; loss := loss d |}.

Definition set_losses (fl rl l : Q) (d : OutputDict) : OutputDict :=
  {| logits := logits d; frame_logits := frame_logits d;
     class_probabilities := class_probabilities d;
     frame_probabilities := frame_probabilities d; mask := mask d;
     words := words d; lemma := lemma d; verb := verb d;
     wordpiece_offsets := wordpiece_offsets d; tags := tags d;
     frame_tags := frame_tags d;
     frame_loss := Some fl; role_loss := Some rl; loss := Some l |}.

(** The attributes of [self] read by [forward] and [decode_frames]. *)
Record Self : Type := {
  vocab : Vocabulary.t;
  lemma_frame_dict : gmap string (list string);
  ignore_span_metric : bool;
  has_span_metric : bool;
  training : bool
}.

(** [[vocab.get_token_index(l) for l in cl if l in label_set]] *)
Definition candidate_ids (v : Vocabulary.t) (cl : list string)
  : result (list nat) :=
  traverse (get_token_index v) (filter (λ l, l ∈ label_set v) cl).

(** Body of the loop [for cl, fp in zip(candidate_labels_ids,
    frame_probabilities)]: the index appended to [frame_predictions]. *)
Definition frame_prediction (clfp : list nat * list Q) : result nat :=
  let '(cl, fp) := clfp in
  fp_candidates ← np_take fp cl;
  if bool_decide (0 < length fp_candidates)
  then k ← argmax fp_candidates; getitem cl k
  else argmax fp.

(** The candidates of the lemma [l] that are known frame labels, in the
    order of the Lexicon entry (the list filtered by [candidate_ids]). *)
Definition filtered_candidates (self : Self) (l : string) : list string :=
  filter (λ c, c ∈ label_set (vocab self))
         (default [] (lemma_frame_dict self !! l)).

(** The probability that the row [fp] gives to the label [c]. *)
Definition probability (v : Vocabulary.t) (fp : list Q) (c : string)
  : option Q :=
  match get_token_index v c with
  | Ok n => fp !! n
  | Raise _ => None
  end.

Definition decode_frames (self : Self) (output_dict : OutputDict)
    (restrict : bool) : result OutputDict :=
  let frame_probabilities := frame_probabilities output_dict in
  if negb restrict then
    frame_predictions ← traverse argmax frame_probabilities;
    frame_tags ← traverse (get_token_from_index (vocab self)) frame_predictions;
    Ok (set_frame_tags frame_tags output_dict)
  else
    let lemmas := lemma output_dict in
    let candidate_labels :=
      (λ l, default [] (lemma_frame_dict self !! l)) <$> lemmas in
    candidate_labels_ids ← traverse (candidate_ids (vocab self)) candidate_labels;
    frame_predictions ←
      traverse frame_prediction (zip candidate_labels_ids frame_probabilities);
    frame_tags ← traverse (get_token_from_index (vocab self)) frame_predictions;
    Ok (set_frame_tags frame_tags output_dict).

(** *** [forward], from the encoder output on

    [forward] is embedded from [embedded_text_input] (the encoder output
    after dropout) and [mask] on. The two projection layers and the softmax
    act on each row independently; together with the loss functions and
    the tag converter they are parameters. *)

(** One entry of [metadata]. *)
Record Metadata : Type := {
  md_words : list string;
  md_verb : option string;
  md_offsets : list nat;
  md_lemmas : list string;
  md_verb_index : option nat;
  md_gold_tags : list string
}.

(** A call of a metric accumulator with its arguments. *)
Inductive MetricCall : Type :=
| SpanMetricCall (batch_verb_indices : list (option nat))
                 (batch_sentences : list (list string))
                 (batch_conll_predicted_tags : list (list string))
                 (batch_conll_gold_tags : list (list string))
| FrameMetricCall (frame_logits : list (list Q))
                  (frame_tags_filtered : list nat).

Definition same_shape {A B} (x : list (list A)) (y : list (list B)) : bool :=
  bool_decide (length <$> x = length <$> y).

Definition select_row {A} (row : list A) (indicator : list Z) : list A :=
  fst <$> filter (λ p, p.2 = 1%Z) (zip row indicator).

(** [super().decode(output_dict)]: the class extends the framework's
    [Model], whose [decode] returns the dictionary it is given. No key is
    added, in particular not [tags]. *)
Definition model_decode (output_dict : OutputDict) : result OutputDict :=
  Ok output_dict.

(** [SrlBertVerbatlas.decode] *)
Definition decode (self : Self) (output_dict : OutputDict) (restrict : bool)
  : result OutputDict :=
  output_dict ← model_decode output_dict;
  decode_frames self output_dict restrict.

(** [d.pop("tags")] *)
Definition pop_tags (d : OutputDict)
  : result (list (list string) * OutputDict) :=
  match tags d with
  | Some v => Ok (v, set_tags None d)
  | None => Raise KeyError
  end.

(** [x[indicator == 1]]: the entries of [x] at the positions holding 1, in
    row-major order; the mask must have the shape of [x]. *)
Definition masked_select {A} (x : list (list A)) (indicator : list (list Z))
  : result (list A) :=
  if same_shape x indicator
  then Ok (concat (zip_with select_row x indicator))
  else Raise IndexError.

Section Forward.
Context {Emb : Type}.
Variable tag_projection_layer : Emb → list Q.
Variable frame_projection_layer : Emb → list Q.
Variable softmax : list Q → list Q.
Variable sequence_cross_entropy_with_logits :
  list (list (list Q)) → list (list nat) → list (list Z) → Q.
Variable frame_criterion : list (list Q) → list nat → Q.
Variable convert_bio_tags_to_conll_format : list string → list string.

(** The span-metric update of [forward] (evaluation with gold tags):
    the predicted tags are popped from the result of [decode] with
    [restrict] off. *)
Definition update_span_metric (self : Self) (output_dict : OutputDict)
    (metadata : list Metadata)
  : result (OutputDict * list MetricCall) :=
  if negb (ignore_span_metric self) && has_span_metric self
     && negb (training self)
  then
    let batch_verb_indices := md_verb_index <$> metadata in
    let batch_sentences := md_words <$> metadata in
    decoded ← decode self output_dict false;
    popped ← pop_tags decoded;
    let batch_bio_predicted_tags := popped.1 in
    let batch_conll_predicted_tags :=
      convert_bio_tags_to_conll_format <$> batch_bio_predicted_tags in
    let batch_bio_gold_tags := md_gold_tags <$> metadata in
    let batch_conll_gold_tags :=
      convert_bio_tags_to_conll_format <$> batch_bio_gold_tags in
    Ok (popped.2,
        [SpanMetricCall batch_verb_indices batch_sentences
           batch_conll_predicted_tags batch_conll_gold_tags])
  else Ok (output_dict, []).

(** [frame_tags[frame_indicator == 1]]; [frame_tags] may be [None]. *)
Definition filter_frame_tags (frame_tags : option (list (list nat)))
    (frame_indicator : list (list Z)) : result (list nat) :=
  match frame_tags with
  | Some ft => masked_select ft frame_indicator
  | None => Raise TypeError
  end.

Definition forward (self : Self)
    (embedded_text_input : list (list Emb)) (mask : list (list Z))
    (frame_indicator : list (list Z)) (metadata : list Metadata)
    (tags : option (list (list nat)))
    (frame_tags : option (list (list nat)))
  : result (OutputDict * list MetricCall) :=
  verbs_embeddings ← masked_select embedded_text_input frame_indicator;
  let logits := fmap (M:=list) tag_projection_layer <$> embedded_text_input in
  let frame_logits := frame_projection_layer <$> verbs_embeddings in
  let class_probabilities := fmap (M:=list) softmax <$> logits in
  let frame_probabilities := softmax <$> frame_logits in
  match metadata with
  | [] => Raise ValueError
  | _ :: _ =>
  let lemmas := concat (md_lemmas <$> metadata) in
  let output_dict :=
    {| logits := logits; frame_logits := frame_logits;
       class_probabilities := class_probabilities;
       frame_probabilities := frame_probabilities; mask := mask;
       words := md_words <$> metadata; lemma := lemmas;
       verb := md_verb <$> metadata;
       wordpiece_offsets := md_offsets <$> metadata;
       tags := None; frame_tags := None;
       frame_loss := None; role_loss := None; loss := None |} in
  match tags with
  | None => Ok (output_dict, [])
  | Some tags =>
      let role_loss := sequence_cross_entropy_with_logits logits tags mask in
      frame_tags_filtered ← filter_frame_tags frame_tags frame_indicator;
      let frame_loss := frame_criterion frame_logits frame_tags_filtered in
      updated ← update_span_metric self output_dict metadata;
      Ok (set_losses frame_loss role_loss ((role_loss + frame_loss) / 2)%Q
            updated.1,
          updated.2 ++ [FrameMetricCall frame_logits frame_tags_filtered])
  end
  end.

(** The framework's [forward_on_instances] runs
    [self.decode(self.forward(...))] on a batch without gold tags;
    entry [i] of each list of the result is handed to instance [i]. *)
Definition forward_then_decode (self : Self)
    (embedded_text_input : list (list Emb)) (mask : list (list Z))
    (frame_indicator : list (list Z)) (metadata : list Metadata)
  : result OutputDict :=
  out ← forward self embedded_text_input mask frame_indicator metadata
          None None;
  decode self out.1 true.

End Forward.

(** [self] with another Lexicon. *)
Definition with_lexicon (lex : gmap string (list string)) (self : Self)
  : Self :=
  {| vocab := vocab self; lemma_frame_dict := lex;
     ignore_span_metric := ignore_span_metric self;
     has_span_metric := has_span_metric self;
     training := training self |}.


End Model.

(** ** The predictor ([SrlTransformersPredictor]) *)

Module Predictor.

(** A token of the tokenizer: its text and its part-of-speech tag. *)
Record Token : Type := { text : string; pos_ : string }.

(** The model output of one instance: the keys read by the predictor. *)
Record Output : Type := {
  o_words : list string;
  o_tags : list string;
  o_frame_tags : string;
  o_verb : string
}.

Record VerbDict : Type := {
  verb : string;
  description : string;
  tags : list string;
  frame : string
}.

(** One entry of [return_dicts]; the key [words] is set by the loop. *)
Record JsonDict : Type := {
  verbs : list VerbDict;
  words : option (list string)
}.

(** [d["words"] = w] *)
Definition set_words (w : list string) (d : JsonDict) : JsonDict :=
  {| verbs := verbs d; words := Some w |}.

(** [d["verbs"].append(v)] *)
Definition append_verb (v : VerbDict) (d : JsonDict) : JsonDict :=
  {| verbs := verbs d ++ [v]; words := words d |}.

(** [l[i]] updated in place by [f]. *)
Definition update {A} (l : list A) (i : nat) (f : A → A) : result (list A) :=
  match l !! i with
  | Some x => Ok (<[i := f x]> l)
  | None => Raise IndexError
  end.

(** [l[-1]] *)
Definition get_last {A} (l : list A) : result A :=
  match last l with
  | Some x => Ok x
  | None => Raise IndexError
  end.

(** [l[-1] = x] *)
Definition set_last {A} (l : list A) (x : A) : result (list A) :=
  match l with
  | [] => Raise IndexError
  | _ :: _ => Ok (<[pred (length l) := x]> l)
  end.

Fixpoint group_by_count_fuel {A} (fuel : nat) (l : list A) (count : nat)
    (default_value : A) : list (list A) :=
  match fuel with
  | 0 => []
  | S fuel' =>
      match l with
      | [] => []
      | _ :: _ =>
          let chunk := take count l in
          (chunk ++ replicate (count - length chunk) default_value)
            :: group_by_count_fuel fuel' (drop count l) count default_value
      end
  end.

(** [group_by_count(iterable, count, default_value)], a [zip_longest] over
    [count] references to one iterator of [iterable]: rounds of [count]
    elements drawn from that iterator, the last round filled up with
    [default_value]; no round at all for [count = 0]. Each round consumes an
    element, so [length l] rounds are enough. *)
Definition group_by_count {A} (l : list A) (count : nat) (default_value : A)
  : list (list A) :=
  match count with
  | 0 => []
  | S _ => group_by_count_fuel (length l) l count default_value
  end.

Section Predictor.
Variable Instance : Type.
(** [self._tokenizer.tokenize] *)
Variable tokenize : string → list Token.
(** [self._dataset_reader.text_to_instance] *)
Variable text_to_instance : list Token → list Z → Instance.
(** [self._model.forward_on_instances], on a list of instances *)
Variable forward_on_instances : list Instance → list Output.

(** Body of [for i, word in enumerate(tokens)]. *)
Definition token_body (tokens : list Token) (words : list string)
    (instances : list Instance) (iw : nat * Token) : list Instance :=
  let '(i, word) := iw in
  if String.eqb (pos_ word) "VERB" then
    let verb_labels := (λ _, 0%Z) <$> words in
    let verb_labels := <[i := 1%Z]> verb_labels in
    let instance := text_to_instance tokens verb_labels in
    instances ++ [instance]
  else instances.

Definition tokens_to_instances (tokens : list Token) : list Instance :=
  let words := text <$> tokens in
  foldl (token_body tokens words) [] (enumerate tokens).

(** Inherited: tokenizes the sentence and splits it into instances. *)
Definition _sentence_to_srl_instances (sentence : string) : list Instance :=
  tokens_to_instances (tokenize sentence).

(** A batch entry is an instance or the padding [None]; the model can
    only be run on instances. *)
Definition run_model (batch : list (option Instance)) : result (list Output) :=
  match mapM id batch with
  | Some instances => Ok (forward_on_instances instances)
  | None => Raise AttributeError
  end.

(** [[instance for instance in batch if instance is not None]] *)
Definition strip_padding (batch : list (option Instance))
  : list (option Instance) :=
  filter (λ instance, instance ≠ None) batch.

(** The batches handed to the model. *)
Definition make_batches (flattened_instances : list Instance)
    (batch_size : nat) : result (list (list (option Instance))) :=
  let batched_instances :=
    group_by_count (Some <$> flattened_instances) batch_size None in
  last_batch ← get_last batched_instances;
  set_last batched_instances (strip_padding last_batch).

(** [for batch in batched_instances: outputs.extend(...)] *)
Definition run_batches (batched_instances : list (list (option Instance)))
  : result (list Output) :=
  for_each (λ outputs batch,
              out ← run_model batch; Ok (outputs ++ out))
           batched_instances [].

Definition make_verb_dict (output : Output) : VerbDict :=
  let words := o_words output in
  let tags := o_tags output in
  let frame := o_frame_tags output in
  let description := Renderer.make_srl_string words tags frame in
  {| verb := o_verb output; description := description;
     tags := tags; frame := frame |}.

(** The two updates of [return_dicts[sentence_index]] made for one
    output, and the initial entry of [return_dicts]. *)
Definition add_output (d : JsonDict) (o : Output) : JsonDict :=
  append_verb (make_verb_dict o) (set_words (o_words o) d).

Definition empty_dict : JsonDict := {| verbs := []; words := None |}.

(** Body of [for _ in range(verb_count)]. *)
Definition verb_body (outputs : list Output) (sentence_index : nat)
    (st : nat * list JsonDict) (_ : nat) : result (nat * list JsonDict) :=
  let '(output_index, return_dicts) := st in
  output ← getitem outputs output_index;
  let words := o_words output in
  return_dicts ← update return_dicts sentence_index (set_words words);
  let verb_dict := make_verb_dict output in
  return_dicts ← update return_dicts sentence_index (append_verb verb_dict);
  Ok (S output_index, return_dicts).

(** Body of [for sentence_index, verb_count in enumerate(...)]. *)
Definition sentence_body (inputs : list string) (outputs : list Output)
    (st : nat * list JsonDict) (iv : nat * nat)
  : result (nat * list JsonDict) :=
  let '(sentence_index, verb_count) := iv in
  if (verb_count =? 0)%nat then
    let '(output_index, return_dicts) := st in
    x ← getitem inputs sentence_index;
    let original_text := text <$> tokenize x in
    return_dicts ←
      update return_dicts sentence_index (set_words original_text);
    Ok (output_index, return_dicts)
  else
    for_each (verb_body outputs sentence_index) (seq 0 verb_count) st.

(** The sentences of [inputs] are the values of their [sentence] keys;
    [sanitize] turns tokens into their text. *)
Definition predict_batch_json (inputs : list string)
  : result (list JsonDict) :=
  let batch_size := length inputs in
  let instances_per_sentence := _sentence_to_srl_instances <$> inputs in
  let flattened_instances := concat instances_per_sentence in
  match flattened_instances with
  | [] =>
      Ok ((λ x, {| verbs := []; words := Some (text <$> tokenize x) |})
            <$> inputs)
  | _ :: _ =>
      batched_instances ← make_batches flattened_instances batch_size;
      outputs ← run_batches batched_instances;
      let verbs_per_sentence := length <$> instances_per_sentence in
      let return_dicts :=
        (λ _, {| verbs := []; words := None |}) <$> inputs in
      st ← for_each (sentence_body inputs outputs)
             (enumerate verbs_per_sentence) (0, return_dicts);
      Ok st.2
  end.

(** The batches and the flattened outputs of a call, as
    [predict_batch_json] computes them (none when no instance exists). *)
Definition dispatched_batches (inputs : list string)
  : result (list (list (option Instance))) :=
  match concat (_sentence_to_srl_instances <$> inputs) with
  | [] => Ok []
  | flattened_instances =>
      make_batches flattened_instances (length inputs)
  end.

Definition flattened_outputs (inputs : list string) : result (list Output) :=
  batched_instances ← dispatched_batches inputs;
  run_batches batched_instances.

(** The regrouping contract: the outputs cut into consecutive slices of
    the recorded sizes, one result per sentence. *)
Definition sentence_result (x : string) (outs : list Output) : JsonDict :=
  match outs with
  | [] => {| verbs := []; words := Some (text <$> tokenize x) |}
  | _ :: _ => {| verbs := make_verb_dict <$> outs;
                 words := o_words <$> last outs |}
  end.

Fixpoint regroup (xs : list string) (counts : list nat)
    (outs : list Output) : list JsonDict :=
  match xs, counts with
  | x :: xs', c :: counts' =>
      sentence_result x (take c outs) :: regroup xs' counts' (drop c outs)
  | _, _ => []
  end.

End Predictor.

End Predictor.

(** ** Sample data *)

Module Samples.
Import Model.

Definition frames : Vocabulary.t := ["SEE"; "EAT"; "RUN"].

(** [see] has one candidate outside the vocabulary; [do] has only such. *)
Definition lexicon : gmap string (list string) :=
  <["see" := ["PERCEIVE"; "SEE"; "EAT"]]>
    (<["do" := ["ACT"]]> ∅).

Definition self : Self :=
  {| vocab := frames; lemma_frame_dict := lexicon;
     ignore_span_metric := false; has_span_metric := true;
     training := false |}.

(** An [output_dict] holding only what [decode_frames] reads. *)
Definition frames_only (rows : list (list Q)) (lemmas : list string)
  : OutputDict :=
  {| logits := []; frame_logits := []; class_probabilities := [];
     frame_probabilities := rows; mask := []; words := [];
     lemma := lemmas; verb := []; wordpiece_offsets := [];
     tags := None; frame_tags := None;
     frame_loss := None; role_loss := None; loss := None |}.

Definition row : list Q := [1#10; 3#10; 6#10].

Definition three_lemmas : OutputDict :=
  frames_only [row; row; row] ["see"; "walk"; "do"].

(** A batch for [forward]: the hidden vector of a token is taken to be its
    frame distribution, and the projections and the softmax to be the
    identity. Every instance has two tokens. *)
Definition other : list Q := [1#3; 1#3; 1#3].

Definition meta (ws : list string) (lemmas : list string) (vi : option nat)
  : Metadata :=
  {| md_words := ws; md_verb := (λ i, default EmptyString (ws !! i)) <$> vi;
     md_offsets := [0; 1]; md_lemmas := lemmas; md_verb_index := vi;
     md_gold_tags := ["O"; "O"] |}.

(** [he sees]: predicate marked at token 1. *)
Definition inst_a_emb : list (list Q) := [other; [1#10; 6#10; 3#10]].
Definition inst_a_ind : list Z := [0; 1]%Z.
Definition inst_a_meta : Metadata := meta ["he"; "sees"] ["see"] (Some 1).

(** [oh well]: no predicate position marked. *)
Definition inst_b_emb : list (list Q) := [other; other].
Definition inst_b_ind : list Z := [0; 0]%Z.
Definition inst_b_meta : Metadata := meta ["oh"; "well"] [] None.

(** [walk on]: predicate marked at token 0. *)
Definition inst_c_emb : list (list Q) := [row; other].
Definition inst_c_ind : list Z := [1; 0]%Z.
Definition inst_c_meta : Metadata := meta ["walk"; "on"] ["walk"] (Some 0).

Definition run_batch (embs : list (list (list Q))) (inds : list (list Z))
    (metas : list Metadata) : result OutputDict :=
  forward_then_decode id id id (λ _ _ _, 0%Q) (λ _ _, 0%Q) id
    self embs ((λ _, [1; 1]%Z) <$> embs) inds metas.

(** A tokenizer knowing three sentences, and a model that labels the
    marked token of each instance. *)
Import Predictor.

Definition tok (w p : string) : Token := {| text := w; pos_ := p |}.

Definition tokenize (s : string) : list Token :=
  if String.eqb s "He came and left" then
    [tok "He" "PRON"; tok "came" "VERB"; tok "and" "CCONJ"; tok "left" "VERB"]
  else if String.eqb s "Oh well" then
    [tok "Oh" "INTJ"; tok "well" "ADV"]
  else if String.eqb s "The cat sees the mouse" then
    [tok "The" "DET"; tok "cat" "NOUN"; tok "sees" "VERB"; tok "the" "DET";
     tok "mouse" "NOUN"]
  else [].

Definition instance : Type := list Token * list Z.

Definition text_to_instance (tokens : list Token) (verb_labels : list Z)
  : instance := (tokens, verb_labels).

Definition infer (i : instance) : Output :=
  {| o_words := text <$> i.1;
     o_tags := (λ z, if bool_decide (z = 1%Z) then "B-V" else "O") <$> i.2;
     o_frame_tags := "MOVE";
     o_verb :=
       String.concat EmptyString
         (zip_with (λ t z, if bool_decide (z = 1%Z) then text t else EmptyString)
                   i.1 i.2) |}.

Definition model (batch : list instance) : list Output := infer <$> batch.

Definition sentences : list string :=
  ["He came and left"; "Oh well"; "The cat sees the mouse"].

End Samples.

(** ** Further parts of the renderer *)

Module RendererPieces.
Import PyStr Renderer.

(** The list [window] at the [return] of [make_srl_string], before the
    final [" ".join]. *)
Definition pieces (words tags : list string) (frame : string) : list string :=
  let st := run frame ([], []) (zip words tags) in
  flush st.1 st.2.

(** The characters of a string. *)
Definition chars (s : string) : list Ascii.ascii := String.list_ascii_of_string s.

End RendererPieces.

(** ** The Lexicon file ([read_dictionary])

    A file is the list of its lines, as the iteration over the file object
    yields them; a character is a code point below 256. *)

Module Lexicon.
Import Stdlib.Strings.Ascii.

(** [c.isspace()] *)
Definition is_space (c : ascii) : bool :=
  let n := nat_of_ascii c in
  ((9 <=? n) && (n <=? 13) || (28 <=? n) && (n <=? 32)
   || (n =? 133) || (n =? 160))%nat.

(** Scan of [split]: [cur] is the word read so far. *)
Fixpoint split_from (cur : string) (s : string) : list string :=
  match s with
  | EmptyString =>
      match cur with
      | EmptyString => []
      | String _ _ => [cur]
      end
  | String c r =>
      if is_space c then
        match cur with
        | EmptyString => split_from EmptyString r
        | String _ _ => cur :: split_from EmptyString r
        end
      else split_from (cur +:+ String c EmptyString) r
  end.

(** [s.split()]: the maximal runs of characters that are not whitespace. *)
Definition split (s : string) : list string := split_from EmptyString s.

(** [k, *v = l.split(); dictionary[k] += v] on a [defaultdict(list)] *)
Definition add_line (dictionary : gmap string (list string)) (l : string)
  : result (gmap string (list string)) :=
  match split l with
  | [] => Raise ValueError
  | k :: v => Ok (<[k := default [] (dictionary !! k) ++ v]> dictionary)
  end.

Definition read_dictionary (file : list string)
  : result (gmap string (list string)) :=
  for_each add_line file ∅.

(** The values that the lines of [file] give to the key [k], in file order. *)
Definition values_of (k : string) (file : list string) : list string :=
  concat ((λ l, match split l with
                | k' :: v => if decide (k' = k) then v else []
                | [] => []
                end) <$> file).

(** The keys of the lines of [file]. *)
Definition keys_of (file : list string) : list string :=
  omap (λ l, head (split l)) file.

(** A word: not empty and free of whitespace. *)
Definition word (s : string) : Prop :=
  s ≠ EmptyString
  ∧ Forall (λ c, is_space c = false) (String.list_ascii_of_string s).

End Lexicon.

(** ** Marked predicate positions *)

Module Marked.

(** The number of positions of an indicator row that hold 1. *)
Definition marked_positions (indicator : list Z) : nat :=
  length (filter (λ z, z = 1%Z) indicator).

End Marked.

(** ** Reported metrics ([SrlBertVerbatlas.get_metrics])

    A metric dictionary is the list of its items, in insertion order; the
    values (floats) are rationals. *)

Module Metrics.
Import Stdlib.Strings.Ascii.

(** [sub in s] *)
Fixpoint contains (sub s : string) : bool :=
  String.prefix sub s
  || match s with
     | EmptyString => false
     | String _ r => contains sub r
     end.

(** [s.split(sep)[0]] for a one-character [sep]: the part of [s] before the
    first [sep], all of [s] when there is none. *)
Fixpoint split_first (sep : ascii) (s : string) : string :=
  match s with
  | EmptyString => EmptyString
  | String c r =>
      if Ascii.eqb c sep then EmptyString else String c (split_first sep r)
  end.

(** [{key(x): y for x, y in items}]: a later item overwrites an earlier one
    with the same key. *)
Definition dict_of (key : string → string) (items : list (string * Q))
  : gmap string Q :=
  foldl (λ d xy, <[key xy.1 := xy.2]> d) ∅ items.

Definition role_key (x : string) : string := split_first "-" x +:+ "_role".
Definition frame_key (x : string) : string := x +:+ "_frame".

(** [span_metric] and [frame_metric] are the items returned by
    [self.span_metric.get_metric] and [self.f1_frame_metric.get_metric];
    [self.span_metric] is [None] when the model was built without scorer. *)
Definition get_metrics (self : Model.Self)
    (span_metric frame_metric : list (string * Q)) : result (gmap string Q) :=
  if Model.ignore_span_metric self then Ok ∅
  else if negb (Model.has_span_metric self) then Raise AttributeError
  else
    let metric_dict := span_metric in
    let frame_metric_dict := frame_metric in
    let metric_dict_filtered :=
      dict_of role_key (filter (λ xy, contains "overall" xy.1 = true) metric_dict) in
    let frame_metric_dict := dict_of frame_key frame_metric_dict in
    Ok (frame_metric_dict ∪ metric_dict_filtered).

End Metrics.

(** ** Further parts of the predictor *)

Module PredictorMore.
Import Predictor.

(** A label list of length [n] that marks position [i]. *)
Definition one_hot (n i : nat) : list Z := <[i := 1%Z]> (replicate n 0%Z).

(** The positions of the tokens tagged [VERB], in token order. *)
Definition verb_indices (tokens : list Token) : list nat :=
  fst <$> filter (λ iw, pos_ iw.2 = "VERB") (enumerate tokens).

(** A strictly increasing list of positions. *)
Definition increasing (l : list nat) : Prop :=
  ∀ a b i j, l !! a = Some i → l !! b = Some j → (a < b)%nat → (i < j)%nat.

Section PredictInstances.
Variable Instance : Type.
(** [self._model.forward_on_instances] *)
Variable forward_on_instances : list Instance → list Output.

(** [predict_instances]: all instances of one sentence in one batch. *)
Definition predict_instances (instances : list Instance) : result JsonDict :=
  let outputs := forward_on_instances instances in
  first_output ← getitem outputs 0;
  let results := {| verbs := []; words := Some (o_words first_output) |} in
  Ok (foldl (λ results output, append_verb (make_verb_dict output) results)
            results outputs).

End PredictInstances.

End PredictorMore.

(** ** Building a predictor from an archive ([from_path], [from_archive]) *)

Module Archive.

Inductive archive_exn : Type :=
| NameError
| ConfigurationError
| MissingKey
| LoadError.

Inductive outcome (A : Type) : Type :=
| Done (a : A)
| Fail (e : archive_exn).
Arguments Done {A} a.
Arguments Fail {A} e.

(** [not predictor_name]: [None] or the empty string. *)
Definition falsy (predictor_name : option string) : bool :=
  match predictor_name with
  | None => true
  | Some EmptyString => true
  | Some (String _ _) => false
  end.

Section FromArchive.
(** The parameters of a component, and a dataset reader. *)
Variable Params : Type.
Variable Reader : Type.
(** [config.get("model").get("type")] *)
Variable model_type_of : gmap string Params → outcome string.
(** [DatasetReader.from_params] *)
Variable reader_from_params : Params → outcome Reader.
(** The names known to [Predictor.by_name]. *)
Variable registered : string → bool.

Record archive : Type := {
  config : gmap string Params;
  model : Model.Self
}.

(** The predictor that is built: its registered name and the arguments
    of its constructor. *)
Record predictor : Type := {
  p_name : string;
  p_model : Model.Self;
  p_reader : Reader;
  p_language : string
}.

(** [model.eval()] *)
Definition eval (m : Model.Self) : Model.Self :=
  {| Model.vocab := Model.vocab m;
     Model.lemma_frame_dict := Model.lemma_frame_dict m;
     Model.ignore_span_metric := Model.ignore_span_metric m;
     Model.has_span_metric := Model.has_span_metric m;
     Model.training := false |}.

(** The first part of [from_archive]: the name of the predictor. The module
    neither imports nor defines [DEFAULT_PREDICTORS], so its evaluation
    raises [NameError]. *)
Definition resolve_name (cfg : gmap string Params)
    (predictor_name : option string) : outcome string :=
  if falsy predictor_name then
    match model_type_of cfg with
    | Done model_type => Fail NameError
    | Fail e => Fail e
    end
  else
    match predictor_name with
    | Some name => Done name
    | None => Fail NameError
    end.

(** The second part: the parameters of the dataset reader. *)
Definition reader_params (cfg : gmap string Params)
    (dataset_reader_to_load : string) : outcome Params :=
  if String.eqb dataset_reader_to_load "validation"
     && bool_decide (is_Some (cfg !! "validation_dataset_reader"))
  then
    match cfg !! "validation_dataset_reader" with
    | Some p => Done p
    | None => Fail MissingKey
    end
  else
    match cfg !! "dataset_reader" with
    | Some p => Done p
    | None => Fail MissingKey
    end.

Definition from_archive (a : archive) (predictor_name : option string)
    (language : string) (dataset_reader_to_load : string)
  : outcome predictor :=
  match resolve_name (config a) predictor_name with
  | Fail e => Fail e
  | Done name =>
      match reader_params (config a) dataset_reader_to_load with
      | Fail e => Fail e
      | Done dataset_reader_params =>
          match reader_from_params dataset_reader_params with
          | Fail e => Fail e
          | Done dataset_reader =>
              let model := eval (model a) in
              if registered name
              then Done {| p_name := name; p_model := model;
                           p_reader := dataset_reader;
                           p_language := language |}
              else Fail ConfigurationError
          end
      end
  end.

(** [load_archive(archive_path, cuda_device=cuda_device)] *)
Variable load_archive : string → outcome archive.

Definition from_path (archive_path : string) (predictor_name : option string)
    (language : string) (dataset_reader_to_load : string)
  : outcome predictor :=
  match load_archive archive_path with
  | Fail e => Fail e
  | Done a => from_archive a predictor_name language dataset_reader_to_load
  end.

End FromArchive.

End Archive.

(** ** Further sample data *)

Module MoreSamples.

(** A frame distribution with [EAT] as its single best label. *)
Definition best_eat : list Q := [1#10; 6#10; 3#10].

(** The model during training. *)
Definition training_self : Model.Self :=
  {| Model.vocab := Samples.frames;
     Model.lemma_frame_dict := Samples.lexicon;
     Model.ignore_span_metric := false; Model.has_span_metric := true;
     Model.training := true |}.

(** A run of [forward] with gold tags on one instance, projections and
    softmax the identity. *)
Definition gold_run (self : Model.Self)
  : result (Model.OutputDict * list Model.MetricCall) :=
  Model.forward id id id (λ _ _ _, 0%Q) (λ _ _, 0%Q) id self
    [Samples.inst_a_emb] [[1; 1]]%Z [Samples.inst_a_ind]
    [Samples.inst_a_meta] (Some [[0; 1]]) (Some [[0; 1]]).

(** The items of a span scorer with one role class, and of the frame
    measure. *)
Definition span_items : list (string * Q) :=
  [("precision-ARG0", 1#2); ("recall-ARG0", 1#3); ("f1-measure-ARG0", 2#5);
   ("precision-overall", 3#4); ("recall-overall", 2#3);
   ("f1-measure-overall", 12#17)].

Definition frame_items : list (string * Q) :=
  [("precision", 9#10); ("recall", 9#10); ("fscore", 9#10)].

End MoreSamples.

(** * Facts *)

Lemma Qltb_true x y : Qltb x y = true ↔ (x < y)%Q.
Proof.
  unfold Qltb. rewrite negb_true_iff, <- not_true_iff_false, Qle_bool_iff.
  split; [apply Qnot_le_lt | apply Qlt_not_le].
Qed.

Lemma Qltb_false x y : Qltb x y = false ↔ (y <= x)%Q.
Proof. unfold Qltb. by rewrite negb_false_iff, Qle_bool_iff. Qed.

Module RendererFacts.
Import PyStr Renderer.

Lemma run_app frame st l1 l2 :
  run frame st (l1 ++ l2) = run frame (run frame st l1) l2.
Proof. unfold run. apply foldl_app. Qed.

Lemma zip_app_cons (ws1 ts1 : list string) w t ws2 ts2 :
  length ws1 = length ts1 →
  zip (ws1 ++ w :: ws2) (ts1 ++ t :: ts2) = zip ws1 ts1 ++ (w, t) :: zip ws2 ts2.
Proof.
  revert ts1. induction ws1 as [|a ws1 IH]; intros [|b ts1] Hlen;
    simpl in *; try discriminate; [reflexivity|].
  f_equal. apply IH. congruence.
Qed.

Lemma step_other frame window chunk w t :
  startswith t "I-" = false →
  startswith t "B-" = false →
  t ≠ "O" →
  step frame (window, chunk) (w, t) = (flush window chunk, []).
Proof.
  intros HI HB HO. unfold step. rewrite HI, HB.
  destruct (String.eqb_spec t "O") as [->|_]; [contradiction|].
  destruct chunk; reflexivity.
Qed.

(** A [B-V] tag starts a span labelled with the frame. *)
Lemma step_B_V frame window chunk w :
  step frame (window, chunk) (w, "B-V")
  = (flush window chunk, [frame +:+ ": " +:+ w]).
Proof.
  assert (Hnil : ∀ s : string, s +:+ EmptyString = s).
  { induction s as [|c s IH]; [done|].
    change (String c (s +:+ EmptyString) = String c s). by rewrite IH. }
  unfold step. simpl. by rewrite Hnil.
Qed.

Example replace_twice : replace "B-VV" "V" "ab" = "B-abab".
Proof. reflexivity. Qed.

Example replace_overlap : replace "aaa" "aa" "b" = "ba".
Proof. reflexivity. Qed.

Example replace_nothing : replace "B-ARG1" "V" "SEE" = "B-ARG1".
Proof. reflexivity. Qed.

(** C9. On words [The cat sees the mouse], tags
    [B-ARG0 I-ARG0 B-V B-ARG1 I-ARG1] and frame [SEE] the renderer returns
    exactly ["[ARG0: The cat] [SEE: sees] [ARG1: the mouse]"]. *)
Theorem make_srl_string_simple_case :
  make_srl_string ["The"; "cat"; "sees"; "the"; "mouse"]
                  ["B-ARG0"; "I-ARG0"; "B-V"; "B-ARG1"; "I-ARG1"] "SEE"
  = "[ARG0: The cat] [SEE: sees] [ARG1: the mouse]".
Proof. vm_compute. reflexivity. Qed.

(** C3 (the code departs from the claim). [tag.replace("V", frame)] rewrites
    every ["V"] of a [B-] tag, not only the role label ["V"]: the role
    [ARGM-ADV] is rendered as [ARGM-AD] followed by the frame. *)
Theorem make_srl_string_replaces_every_V :
  step "RUN" ([], []) ("quickly", "B-ARGM-ADV") = ([], ["ARGM-ADRUN: quickly"])
  ∧ make_srl_string ["He"; "ran"; "quickly"]
                    ["B-ARG0"; "B-V"; "B-ARGM-ADV"] "RUN"
    = "[ARG0: He] [RUN: ran] [ARGM-ADRUN: quickly]".
Proof. split; vm_compute; reflexivity. Qed.

(** C10. A word whose tag neither starts with [I-] nor with [B-] nor equals
    [O] flushes the open span buffer and leaves no trace: the loop goes on
    from the flushed window with an empty buffer, so the rendered string
    is the same whatever that word is. *)
Theorem make_srl_string_unknown_tag_omitted
    frame (ws1 ts1 ws2 ts2 : list string) (w t : string) :
  startswith t "I-" = false →
  startswith t "B-" = false →
  t ≠ "O" →
  length ws1 = length ts1 →
  (∀ window chunk,
      step frame (window, chunk) (w, t) = (flush window chunk, []))
  ∧ (let st := run frame ([], []) (zip ws1 ts1) in
     make_srl_string (ws1 ++ w :: ws2) (ts1 ++ t :: ts2) frame
     = finish (run frame (flush st.1 st.2, []) (zip ws2 ts2)))
  ∧ (∀ w', make_srl_string (ws1 ++ w :: ws2) (ts1 ++ t :: ts2) frame
           = make_srl_string (ws1 ++ w' :: ws2) (ts1 ++ t :: ts2) frame).
Proof.
  intros HI HB HO Hlen.
  assert (Hstep : ∀ x window chunk,
             step frame (window, chunk) (x, t) = (flush window chunk, [])).
  { intros. by apply step_other. }
  assert (Hrun : ∀ x,
             make_srl_string (ws1 ++ x :: ws2) (ts1 ++ t :: ts2) frame
             = finish (run frame
                         (flush (run frame ([], []) (zip ws1 ts1)).1
                                (run frame ([], []) (zip ws1 ts1)).2, [])
                         (zip ws2 ts2))).
  { intros x. unfold make_srl_string.
    rewrite zip_app_cons by done. rewrite run_app.
    destruct (run frame ([], []) (zip ws1 ts1)) as [window chunk] eqn:E.
    change (run frame (window, chunk) ((x, t) :: zip ws2 ts2))
      with (run frame (step frame (window, chunk) (x, t)) (zip ws2 ts2)).
    by rewrite Hstep. }
  split; [apply Hstep|]. split; [apply Hrun|].
  intros w'. by rewrite !Hrun.
Qed.

Lemma make_srl_string_unknown_tag_omitted_witness :
  make_srl_string (["The"; "cat"] ++ "uh" :: ["sat"])
                  (["B-ARG0"; "I-ARG0"] ++ "X" :: ["I-V"]) "SIT"
  = make_srl_string (["The"; "cat"] ++ "hm" :: ["sat"])
                    (["B-ARG0"; "I-ARG0"] ++ "X" :: ["I-V"]) "SIT".
Proof.
  refine (proj2 (proj2 (make_srl_string_unknown_tag_omitted
                          "SIT" ["The"; "cat"] ["B-ARG0"; "I-ARG0"]
                          ["sat"] ["I-V"] "uh" "X" _ _ _ _)) "hm").
  - reflexivity.
  - reflexivity.
  - discriminate.
  - reflexivity.
Defined.

Example unknown_tag_rendering :
  make_srl_string ["The"; "cat"; "uh"; "sat"] ["B-ARG0"; "I-ARG0"; "X"; "I-V"] "SIT"
  = "[ARG0: The cat] [sat]".
Proof. vm_compute. reflexivity. Qed.

End RendererFacts.

(** ** Exceptions and loops *)

Section Traverse.
Context {A B : Type} (f : A → result B).

Lemma traverse_Ok l ys :
  traverse f l = Ok ys ↔ Forall2 (λ x y, f x = Ok y) l ys.
Proof.
  revert ys. induction l as [|x l IH]; intros ys; simpl.
  - split.
    + intros [= <-]. constructor.
    + intros H. by inversion H.
  - destruct (f x) as [y|e] eqn:Hx; simpl.
    + destruct (traverse f l) as [zs|e] eqn:Hl; simpl.
      * split.
        -- intros [= <-]. constructor; [done|]. by apply IH.
        -- intros H. inversion H as [|? y' ? zs' Hy Hzs]; subst.
           apply IH in Hzs. congruence.
      * split; [discriminate|].
        intros H. inversion H as [|? y' ? zs' Hy Hzs]; subst.
        apply IH in Hzs. discriminate.
    + split; [discriminate|].
      intros H. inversion H; subst. congruence.
Qed.

Lemma traverse_total l :
  Forall (λ x, ∃ y, f x = Ok y) l →
  ∃ ys, traverse f l = Ok ys ∧ Forall2 (λ x y, f x = Ok y) l ys.
Proof.
  induction 1 as [|x l [y Hy] _ (ys & Hys & HF)]; simpl.
  - exists []. split; [done | constructor].
  - exists (y :: ys). rewrite Hy. simpl. rewrite Hys. simpl.
    split; [done | by constructor].
Qed.

Lemma traverse_length l ys : traverse f l = Ok ys → length ys = length l.
Proof. intros H%traverse_Ok. symmetry. by eapply Forall2_length. Qed.

End Traverse.

Lemma getitem_Ok {A} (l : list A) i x : getitem l i = Ok x ↔ l !! i = Some x.
Proof. unfold getitem. destruct (l !! i); split; congruence. Qed.

(** ** [argmax] returns the first maximum *)

Lemma argmax_from_spec l : ∀ pre best_i best,
  pre !! best_i = Some best →
  (∀ j y, pre !! j = Some y → (y <= best)%Q) →
  (∀ j y, j < best_i → pre !! j = Some y → (y < best)%Q) →
  first_max (pre ++ l) (argmax_from best_i best (length pre) l).
Proof.
  induction l as [|x r IH]; intros pre best_i best Hbest Hmax Hfirst; simpl.
  - rewrite app_nil_r. exists best. eauto.
  - assert (Hlen : S (length pre) = length (pre ++ [x]))
      by (rewrite length_app; simpl; lia).
    rewrite Hlen, (cons_middle x pre r), app_assoc.
    destruct (Qltb best x) eqn:Hcmp.
    + apply Qltb_true in Hcmp. apply IH.
      * by rewrite lookup_app_r, Nat.sub_diag.
      * intros j y Hj. apply lookup_app_Some in Hj as [Hj|[_ Hj]].
        -- apply Qlt_le_weak. eapply Qle_lt_trans; eauto.
        -- apply list_lookup_singleton_Some in Hj as [_ ->]. apply Qle_refl.
      * intros j y Hlt Hj. rewrite lookup_app_l in Hj by done.
        eapply Qle_lt_trans; eauto.
    + apply Qltb_false in Hcmp. apply IH.
      * rewrite lookup_app_l; [done|]. by eapply lookup_lt_Some.
      * intros j y Hj. apply lookup_app_Some in Hj as [Hj|[_ Hj]]; [eauto|].
        by apply list_lookup_singleton_Some in Hj as [_ ->].
      * intros j y Hlt Hj. apply lookup_lt_Some in Hbest.
        rewrite lookup_app_l in Hj by lia. eauto.
Qed.

Lemma argmax_spec l k : argmax l = Ok k → first_max l k.
Proof.
  destruct l as [|x r]; [discriminate|]. intros [= <-].
  apply (argmax_from_spec r [x] 0 x).
  - done.
  - intros [|j] y [= <-]. apply Qle_refl.
  - intros; lia.
Qed.

Lemma argmax_total l : l ≠ [] → ∃ k, argmax l = Ok k.
Proof. destruct l; [done|]. simpl. eauto. Qed.

Lemma first_max_lt l k : first_max l k → k < length l.
Proof. intros (x & Hx & _). by eapply lookup_lt_Some. Qed.

Lemma np_take_Ok a indices ps :
  np_take a indices = Ok ps ↔ Forall2 (λ k p, a !! k = Some p) indices ps.
Proof.
  unfold np_take. rewrite traverse_Ok.
  split; intros H; (eapply Forall2_impl; [exact H|]);
    intros k p; by rewrite getitem_Ok.
Qed.

Example argmax_tie : argmax [1#4; 3#8; 3#8] = Ok 1.
Proof. reflexivity. Qed.

(** ** Frame disambiguation *)

Module ModelFacts.
Import Vocabulary Model.

Lemma get_token_index_Ok v c n : get_token_index v c = Ok n → v !! n = Some c.
Proof.
  unfold get_token_index.
  destruct (list_find _ v) as [[i x]|] eqn:Hfind; [|discriminate].
  intros [= <-]. apply list_find_Some in Hfind as (Hi & -> & _). done.
Qed.

Lemma get_token_index_total v c :
  c ∈ label_set v → ∃ n, get_token_index v c = Ok n.
Proof.
  unfold label_set, get_token_index. rewrite elem_of_list_to_set. intros Hc.
  destruct (list_find_elem_of (λ x, x = c) v c Hc eq_refl) as [[i x] ->].
  eauto.
Qed.

Lemma get_token_from_index_Ok v n lab :
  get_token_from_index v n = Ok lab ↔ v !! n = Some lab.
Proof. unfold get_token_from_index. destruct (v !! n); split; congruence. Qed.

Lemma candidate_ids_total v cl :
  ∃ ids, candidate_ids v cl = Ok ids.
Proof.
  unfold candidate_ids.
  destruct (traverse_total (get_token_index v)
              (filter (λ l, l ∈ label_set v) cl)) as (ids & Hids & _); [|eauto].
  apply Forall_forall. intros c [Hc _]%list_elem_of_filter.
  by apply get_token_index_total.
Qed.

Lemma candidate_ids_Ok v cl ids :
  candidate_ids v cl = Ok ids →
  Forall2 (λ c n, get_token_index v c = Ok n)
          (filter (λ l, l ∈ label_set v) cl) ids.
Proof. unfold candidate_ids. by rewrite traverse_Ok. Qed.

Lemma np_take_total v cs ids fp :
  Forall2 (λ c n, get_token_index v c = Ok n) cs ids →
  length fp = length v →
  ∃ ps, np_take fp ids = Ok ps ∧ Forall2 (λ n p, fp !! n = Some p) ids ps.
Proof.
  intros Hids Hlen.
  destruct (traverse_total (getitem fp) ids) as (ps & Hps & _).
  - eapply Forall2_Forall_r; [exact Hids|]. apply Forall_forall.
    intros c _ n Hn%get_token_index_Ok%lookup_lt_Some.
    destruct (lookup_lt_is_Some_2 fp n) as [p Hp]; [lia|].
    exists p. by apply getitem_Ok.
  - exists ps. split; [done|]. by apply np_take_Ok.
Qed.

(** A row with candidates: the stable argmax over the restricted vector. *)
Lemma frame_prediction_restricted v fp cs ids :
  Forall2 (λ c n, get_token_index v c = Ok n) cs ids →
  length fp = length v →
  cs ≠ [] →
  ∃ k n lab p,
    frame_prediction (ids, fp) = Ok n
    ∧ cs !! k = Some lab ∧ v !! n = Some lab
    ∧ probability v fp lab = Some p
    ∧ (∀ j c q, cs !! j = Some c → probability v fp c = Some q → (q <= p)%Q)
    ∧ (∀ j c q, j < k → cs !! j = Some c → probability v fp c = Some q
                → (q < p)%Q).
Proof.
  intros Hids Hlen Hne.
  destruct (np_take_total v cs ids fp Hids Hlen) as (ps & Htake & Hps).
  assert (Hlen_ps : length ps = length cs).
  { apply Forall2_length in Hids, Hps. congruence. }
  assert (Hps_ne : ps ≠ []).
  { intros ->. destruct cs; [done | discriminate]. }
  destruct (argmax_total ps Hps_ne) as [k Hk].
  pose proof (argmax_spec ps k Hk) as (p & Hkp & Hmax & Hfirst).
  destruct (Forall2_lookup_r _ _ _ k p Hps Hkp) as (n & Hn & Hfpn).
  destruct (Forall2_lookup_r _ _ _ k n Hids Hn) as (lab & Hlab & Hidx).
  assert (Hprob : ∀ j c q, cs !! j = Some c → probability v fp c = Some q
                           → ps !! j = Some q).
  { intros j c q Hc Hq.
    destruct (Forall2_lookup_l _ _ _ j c Hids Hc) as (m & Hm & Hcm).
    destruct (Forall2_lookup_l _ _ _ j m Hps Hm) as (q' & Hq' & Hfq).
    unfold probability in Hq. rewrite Hcm in Hq. congruence. }
  exists k, n, lab, p. repeat split.
  - unfold frame_prediction. rewrite Htake. simpl.
    rewrite bool_decide_eq_true_2 by (destruct ps; [done | simpl; lia]).
    rewrite Hk. simpl. by apply getitem_Ok.
  - done.
  - by apply get_token_index_Ok.
  - unfold probability. by rewrite Hidx.
  - intros j c q Hc Hq. eapply Hmax. eauto.
  - intros j c q Hlt Hc Hq. eapply Hfirst; eauto.
Qed.

(** A row without candidates: the global argmax. *)
Lemma frame_prediction_fallback fp : frame_prediction ([], fp) = argmax fp.
Proof. reflexivity. Qed.

Lemma frame_prediction_total v cl ids fp :
  v ≠ [] → length fp = length v →
  candidate_ids v cl = Ok ids →
  ∃ n lab, frame_prediction (ids, fp) = Ok n ∧ v !! n = Some lab.
Proof.
  intros Hv Hlen Hids%candidate_ids_Ok.
  destruct (filter (λ l, l ∈ label_set v) cl) as [|c cs] eqn:Hf.
  - apply Forall2_nil_inv_l in Hids as ->.
    rewrite frame_prediction_fallback.
    destruct (argmax_total fp) as [n Hn].
    { intros ->. by destruct v. }
    pose proof (first_max_lt _ _ (argmax_spec _ _ Hn)) as Hlt.
    destruct (lookup_lt_is_Some_2 v n) as [lab Hlab]; [lia|]. eauto.
  - destruct (frame_prediction_restricted v fp (c :: cs) ids Hids Hlen)
      as (k & n & lab & p & Hn & _ & Hlab & _); [done|]. eauto.
Qed.

(** *** The whole batch *)

Section Batch.
Variable self : Self.
Variable output_dict : OutputDict.
Let v := vocab self.
Let rows := frame_probabilities output_dict.
Let lemmas := lemma output_dict.

Hypothesis vocab_nonempty : v ≠ [].
Hypothesis rows_shape : Forall (λ row, length row = length v) rows.

Lemma row_length i fp : rows !! i = Some fp → length fp = length v.
Proof.
  intros Hfp.
  exact (Forall_lookup_1 (λ row, length row = length v) rows i fp
           rows_shape Hfp).
Qed.

(** With rows of the size of the vocabulary the restricted decoding
    returns, and the tag at index [i] is determined by the [i]-th lemma
    and the [i]-th row alone. *)
Lemma decode_frames_restricted_Ok :
  ∃ ftags,
    decode_frames self output_dict true = Ok (set_frame_tags ftags output_dict)
    ∧ ∀ i l fp, lemmas !! i = Some l → rows !! i = Some fp →
        ∃ ids n lab,
          candidate_ids v (default [] (lemma_frame_dict self !! l)) = Ok ids
          ∧ frame_prediction (ids, fp) = Ok n
          ∧ v !! n = Some lab
          ∧ ftags !! i = Some lab.
Proof.
  unfold decode_frames. simpl. fold v rows lemmas.
  set (cls := (λ l, default [] (lemma_frame_dict self !! l)) <$> lemmas).
  destruct (traverse_total (candidate_ids v) cls) as (idss & -> & Hidss).
  { apply Forall_forall. intros cl _. apply candidate_ids_total. }
  simpl.
  destruct (traverse_total frame_prediction (zip idss rows))
    as (preds & -> & Hpreds).
  { apply Forall_lookup. intros i [ids fp] Hi.
    apply lookup_zip_with_Some in Hi as (ids' & fp' & [= <- <-] & Hids & Hfp).
    destruct (Forall2_lookup_r _ _ _ i ids Hidss Hids) as (cl & _ & Hcl).
    destruct (frame_prediction_total v cl ids fp) as (n & lab & Hn & _);
      [done | by eapply row_length | done | eauto]. }
  simpl.
  assert (Hrow : ∀ i l fp, lemmas !! i = Some l → rows !! i = Some fp →
            ∃ ids n lab,
              candidate_ids v (default [] (lemma_frame_dict self !! l)) = Ok ids
              ∧ frame_prediction (ids, fp) = Ok n
              ∧ v !! n = Some lab ∧ preds !! i = Some n).
  { intros i l fp Hl Hfp.
    assert (Hcl : cls !! i = Some (default [] (lemma_frame_dict self !! l))).
    { unfold cls. rewrite list_lookup_fmap, Hl. done. }
    destruct (Forall2_lookup_l _ _ _ i _ Hidss Hcl) as (ids & Hids & Hcids).
    assert (Hz : zip idss rows !! i = Some (ids, fp)).
    { apply lookup_zip_with_Some. eauto. }
    destruct (Forall2_lookup_l _ _ _ i _ Hpreds Hz) as (n & Hn & Hfn).
    destruct (frame_prediction_total v
                (default [] (lemma_frame_dict self !! l)) ids fp
                vocab_nonempty) as (n' & lab & Hn' & Hlab);
      [by eapply row_length | exact Hcids |].
    exists ids, n, lab. replace n' with n in * by congruence. eauto. }
  destruct (traverse_total (get_token_from_index v) preds)
    as (ftags & -> & Hftags).
  { apply Forall_lookup. intros i n Hn.
    destruct (Forall2_lookup_r _ _ _ i n Hpreds Hn) as ([ids fp] & Hz & Hfn).
    apply lookup_zip_with_Some in Hz as (ids' & fp' & [= <- <-] & Hids & Hfp).
    destruct (Forall2_lookup_r _ _ _ i ids Hidss Hids) as (cl & _ & Hcl).
    destruct (frame_prediction_total v cl ids fp) as (n' & lab & Hn' & Hlab);
      [done | by eapply row_length | done |].
    exists lab. apply get_token_from_index_Ok.
    cbv beta in Hfn. rewrite Hfn in Hn'. injection Hn' as <-. exact Hlab. }
  simpl. exists ftags. split; [done|].
  intros i l fp Hl Hfp.
  destruct (Hrow i l fp Hl Hfp) as (ids & n & lab & Hids & Hn & Hlab & Hp).
  exists ids, n, lab. repeat split; try done.
  destruct (Forall2_lookup_l _ _ _ i n Hftags Hp) as (lab' & Hlab' & Hg).
  apply get_token_from_index_Ok in Hg. congruence.
Qed.

(** Without restriction every row is resolved by its global argmax. *)
Lemma decode_frames_unrestricted_Ok :
  ∃ ftags,
    decode_frames self output_dict false = Ok (set_frame_tags ftags output_dict)
    ∧ ∀ i fp, rows !! i = Some fp →
        ∃ n lab, argmax fp = Ok n ∧ v !! n = Some lab ∧ ftags !! i = Some lab.
Proof.
  unfold decode_frames. simpl. fold v rows.
  assert (Hrow : ∀ i fp, rows !! i = Some fp →
             ∃ n lab, argmax fp = Ok n ∧ v !! n = Some lab).
  { intros i fp Hfp.
    pose proof (row_length i fp Hfp) as Hlen.
    destruct (argmax_total fp) as [n Hn].
    { intros ->. by destruct v. }
    pose proof (first_max_lt _ _ (argmax_spec _ _ Hn)) as Hlt.
    destruct (lookup_lt_is_Some_2 v n) as [lab Hlab]; [lia|]. eauto. }
  destruct (traverse_total argmax rows) as (preds & -> & Hpreds).
  { apply Forall_lookup. intros i fp Hfp.
    destruct (Hrow i fp Hfp) as (n & _ & Hn & _). eauto. }
  simpl.
  destruct (traverse_total (get_token_from_index v) preds)
    as (ftags & -> & Hftags).
  { apply Forall_lookup. intros i n Hn.
    destruct (Forall2_lookup_r _ _ _ i n Hpreds Hn) as (fp & Hfp & Hfn).
    destruct (Hrow i fp Hfp) as (n' & lab & Hn' & Hlab).
    exists lab. apply get_token_from_index_Ok. congruence. }
  simpl. exists ftags. split; [done|].
  intros i fp Hfp.
  destruct (Hrow i fp Hfp) as (n & lab & Hn & Hlab).
  destruct (Forall2_lookup_l _ _ _ i fp Hpreds Hfp) as (n' & Hn' & Hfn).
  destruct (Forall2_lookup_l _ _ _ i n' Hftags Hn') as (lab' & Hlab' & Hg).
  apply get_token_from_index_Ok in Hg.
  exists n, lab. repeat split; try done. congruence.
Qed.

End Batch.

Lemma filtered_candidates_nil self l :
  (lemma_frame_dict self !! l = None
   ∨ ∃ cands, lemma_frame_dict self !! l = Some cands
              ∧ Forall (λ c, c ∉ vocab self) cands) →
  filtered_candidates self l = [].
Proof.
  unfold filtered_candidates. intros [-> | (cands & -> & Hout)]; [done|].
  simpl. induction Hout as [|c cands Hc _ IH]; [done|].
  rewrite filter_cons_False; [done|].
  unfold label_set. by rewrite elem_of_list_to_set.
Qed.

Lemma filtered_candidates_cons self l cands c :
  lemma_frame_dict self !! l = Some cands →
  c ∈ cands → c ∈ vocab self →
  filtered_candidates self l ≠ [].
Proof.
  unfold filtered_candidates. intros -> Hc Hv Hnil. simpl in Hnil.
  eapply (filter_nil_not_elem_of _ _ c Hnil); [|done].
  unfold label_set. by rewrite elem_of_list_to_set.
Qed.

(** C1. With [restrict] on, an instance whose lemma has a Lexicon entry with
    at least one candidate in the frame vocabulary gets a label of the
    filtered candidate list: the candidate of highest probability, the
    first such candidate of the filtered list on a tie. Labels outside the
    list are never returned, whatever their probability. *)
Theorem decode_frames_restrict_picks_candidate
    (self : Self) (output_dict : OutputDict) (i : nat) (l : string)
    (fp : list Q) (cands : list string) (c0 : string) :
  lemma output_dict !! i = Some l →
  frame_probabilities output_dict !! i = Some fp →
  lemma_frame_dict self !! l = Some cands →
  c0 ∈ cands → c0 ∈ vocab self →
  Forall (λ row, length row = length (vocab self))
         (frame_probabilities output_dict) →
  ∃ ftags k lab p,
    decode_frames self output_dict true
    = Ok (set_frame_tags ftags output_dict)
    ∧ ftags !! i = Some lab
    ∧ lab ∈ filtered_candidates self l
    ∧ filtered_candidates self l !! k = Some lab
    ∧ probability (vocab self) fp lab = Some p
    ∧ (∀ j c q, filtered_candidates self l !! j = Some c →
                probability (vocab self) fp c = Some q → (q <= p)%Q)
    ∧ (∀ j c q, j < k → filtered_candidates self l !! j = Some c →
                probability (vocab self) fp c = Some q → (q < p)%Q).
Proof.
  intros Hl Hfp Hlex Hc0 Hv0 Hshape.
  assert (Hv : vocab self ≠ []).
  { intros Hnil. rewrite Hnil in Hv0. by apply elem_of_nil in Hv0. }
  pose proof (filtered_candidates_cons self l cands c0 Hlex Hc0 Hv0) as Hne.
  destruct (decode_frames_restricted_Ok self output_dict Hv Hshape)
    as (ftags & Hdec & Hrows).
  destruct (Hrows i l fp Hl Hfp) as (ids & n & lab & Hids & Hn & Hlab & Hi).
  apply candidate_ids_Ok in Hids. fold (filtered_candidates self l) in Hids.
  destruct (frame_prediction_restricted (vocab self) fp
              (filtered_candidates self l) ids Hids)
    as (k & n' & lab' & p & Hn' & Hk & Hlab' & Hp & Hmax & Hfirst);
    [by eapply row_length | done |].
  rewrite Hn in Hn'. injection Hn' as <-.
  rewrite Hlab in Hlab'. injection Hlab' as <-.
  exists ftags, k, lab, p. repeat split; try done.
  by eapply list_elem_of_lookup_2.
Qed.

(** C5. With [restrict] on, an instance whose lemma is absent from the
    Lexicon, or has only candidates outside the frame vocabulary, gets the
    label that [restrict] off gives it: the label at the first maximum of
    its frame distribution. *)
Theorem decode_frames_fallback_global_argmax
    (self : Self) (output_dict : OutputDict) (i : nat) (l : string)
    (fp : list Q) :
  lemma output_dict !! i = Some l →
  frame_probabilities output_dict !! i = Some fp →
  (lemma_frame_dict self !! l = None
   ∨ ∃ cands, lemma_frame_dict self !! l = Some cands
              ∧ Forall (λ c, c ∉ vocab self) cands) →
  vocab self ≠ [] →
  Forall (λ row, length row = length (vocab self))
         (frame_probabilities output_dict) →
  ∃ ftags_restricted ftags_unrestricted k lab,
    decode_frames self output_dict true
    = Ok (set_frame_tags ftags_restricted output_dict)
    ∧ decode_frames self output_dict false
      = Ok (set_frame_tags ftags_unrestricted output_dict)
    ∧ ftags_restricted !! i = Some lab
    ∧ ftags_unrestricted !! i = Some lab
    ∧ first_max fp k
    ∧ vocab self !! k = Some lab.
Proof.
  intros Hl Hfp Hmiss Hv Hshape.
  apply filtered_candidates_nil in Hmiss.
  destruct (decode_frames_restricted_Ok self output_dict Hv Hshape)
    as (ftr & Hr & Hrows_r).
  destruct (decode_frames_unrestricted_Ok self output_dict Hv Hshape)
    as (ftu & Hu & Hrows_u).
  destruct (Hrows_r i l fp Hl Hfp) as (ids & n & lab & Hids & Hn & Hlab & Hi).
  destruct (Hrows_u i fp Hfp) as (m & lab' & Hm & Hlab' & Hi').
  apply candidate_ids_Ok in Hids. fold (filtered_candidates self l) in Hids.
  rewrite Hmiss in Hids. apply Forall2_nil_inv_l in Hids as ->.
  rewrite frame_prediction_fallback, Hm in Hn. injection Hn as ->.
  rewrite Hlab in Hlab'. injection Hlab' as <-.
  exists ftr, ftu, n, lab. repeat split; try done.
  by apply argmax_spec.
Qed.

Example decode_frames_sample :
  frame_tags <$> decode_frames Samples.self Samples.three_lemmas true
  = Ok (Some ["EAT"; "RUN"; "RUN"])
  ∧ frame_tags <$> decode_frames Samples.self Samples.three_lemmas false
    = Ok (Some ["RUN"; "RUN"; "RUN"]).
Proof. split; vm_compute; reflexivity. Qed.

Lemma decode_frames_restrict_picks_candidate_witness :
  ∃ ftags k lab p,
    decode_frames Samples.self Samples.three_lemmas true
    = Ok (set_frame_tags ftags Samples.three_lemmas)
    ∧ ftags !! 0 = Some lab
    ∧ lab ∈ filtered_candidates Samples.self "see"
    ∧ filtered_candidates Samples.self "see" !! k = Some lab
    ∧ probability Samples.frames Samples.row lab = Some p
    ∧ (∀ j c q, filtered_candidates Samples.self "see" !! j = Some c →
                probability Samples.frames Samples.row c = Some q → (q <= p)%Q)
    ∧ (∀ j c q, j < k → filtered_candidates Samples.self "see" !! j = Some c →
                probability Samples.frames Samples.row c = Some q → (q < p)%Q).
Proof.
  apply (decode_frames_restrict_picks_candidate
           Samples.self Samples.three_lemmas 0 "see" Samples.row
           ["PERCEIVE"; "SEE"; "EAT"] "SEE").
  - reflexivity.
  - reflexivity.
  - vm_compute. reflexivity.
  - apply list_elem_of_In. simpl. tauto.
  - apply list_elem_of_In. simpl. tauto.
  - repeat constructor.
Defined.

Lemma decode_frames_fallback_global_argmax_witness :
  ∃ ftags_restricted ftags_unrestricted k lab,
    decode_frames Samples.self Samples.three_lemmas true
    = Ok (set_frame_tags ftags_restricted Samples.three_lemmas)
    ∧ decode_frames Samples.self Samples.three_lemmas false
      = Ok (set_frame_tags ftags_unrestricted Samples.three_lemmas)
    ∧ ftags_restricted !! 1 = Some lab
    ∧ ftags_unrestricted !! 1 = Some lab
    ∧ first_max Samples.row k
    ∧ Samples.frames !! k = Some lab.
Proof.
  apply (decode_frames_fallback_global_argmax
           Samples.self Samples.three_lemmas 1 "walk" Samples.row).
  - reflexivity.
  - reflexivity.
  - left. vm_compute. reflexivity.
  - discriminate.
  - repeat constructor.
Defined.

(** *** The metric path *)


Section MetricPath.
Context {Emb : Type}.
Variable tag_projection_layer : Emb → list Q.
Variable frame_projection_layer : Emb → list Q.
Variable softmax : list Q → list Q.
Variable sequence_cross_entropy_with_logits :
  list (list (list Q)) → list (list nat) → list (list Z) → Q.
Variable frame_criterion : list (list Q) → list nat → Q.
Variable convert_bio_tags_to_conll_format : list string → list string.




End MetricPath.

(** The restriction does reach the inference path: the same batch decoded
    under two Lexicons. *)
Example decode_frames_restricted_lexicon :
  frame_tags <$> decode_frames (with_lexicon ∅ Samples.self)
                   Samples.three_lemmas true
  = Ok (Some ["RUN"; "RUN"; "RUN"])
  ∧ frame_tags <$> decode_frames (with_lexicon Samples.lexicon Samples.self)
                     Samples.three_lemmas true
    = Ok (Some ["EAT"; "RUN"; "RUN"]).
Proof. split; vm_compute; reflexivity. Qed.

(** *** An instance without a marked predicate position *)

(** C4 (the code departs from the claim). [embedded_text_input[
    frame_indicator == 1]] has no row for an instance whose indicator is
    all zero, so [frame_tags] is one entry short and the entries of the
    later instances move up: in the batch [a; b; c] with [b] unmarked,
    entry 1 (the slot of [b]) holds the label of [c] and entry 2 (the slot
    of [c]) does not exist, while in the batch [a; c] instance [c] finds
    its label [RUN] at its own index. *)
Theorem unmarked_instance_shifts_frame_tags :
  let with_b :=
    Samples.run_batch
      [Samples.inst_a_emb; Samples.inst_b_emb; Samples.inst_c_emb]
      [Samples.inst_a_ind; Samples.inst_b_ind; Samples.inst_c_ind]
      [Samples.inst_a_meta; Samples.inst_b_meta; Samples.inst_c_meta] in
  let without_b :=
    Samples.run_batch
      [Samples.inst_a_emb; Samples.inst_c_emb]
      [Samples.inst_a_ind; Samples.inst_c_ind]
      [Samples.inst_a_meta; Samples.inst_c_meta] in
  frame_tags <$> with_b = Ok (Some ["EAT"; "RUN"])
  ∧ frame_tags <$> without_b = Ok (Some ["EAT"; "RUN"])
  ∧ (λ d, default [] (frame_tags d) !! 2) <$> with_b = Ok None
  ∧ (λ d, default [] (frame_tags d) !! 1) <$> without_b = Ok (Some "RUN")
  ∧ (λ d, length (words d)) <$> with_b = Ok 3.
Proof. repeat split; vm_compute; reflexivity. Qed.

End ModelFacts.

(** ** Batching and regrouping *)

Module PredictorFacts.
Import Predictor.
Local Open Scope nat_scope.

Lemma for_each_app {A S} (body : S → A → result S) l1 l2 s :
  for_each body (l1 ++ l2) s = s' ← for_each body l1 s; for_each body l2 s'.
Proof.
  revert s. induction l1 as [|x l1 IH]; intros s; simpl; [done|].
  destruct (body s x); simpl; [apply IH | done].
Qed.

(** *** [group_by_count] *)

Lemma group_by_count_fuel_nil {A} fuel count (d : A) :
  group_by_count_fuel fuel [] count d = [].
Proof. by destruct fuel. Qed.

Lemma group_by_count_fuel_step {A} fuel (l : list A) count d :
  l ≠ [] →
  group_by_count_fuel (S fuel) l count d
  = (take count l ++ replicate (count - length (take count l)) d)
      :: group_by_count_fuel fuel (drop count l) count d.
Proof. by destruct l. Qed.

(** Only the last round is filled up: the rounds are the consecutive
    chunks of [l], and the padding follows the last chunk. *)
Lemma group_by_count_fuel_Some {A} count fuel (l : list A) :
  0 < count → l ≠ [] → length l ≤ fuel →
  ∃ (chunks : list (list A)) (lst : list A),
    group_by_count_fuel fuel (Some <$> l) count None
    = (fmap (M:=list) Some <$> chunks)
        ++ [(Some <$> lst) ++ replicate (count - length lst) None]
    ∧ concat chunks ++ lst = l
    ∧ Forall (λ c, length c = count) chunks
    ∧ 0 < length lst ≤ count.
Proof.
  intros Hcount. revert l.
  induction fuel as [|fuel IH]; intros l Hne Hlen.
  { destruct l; [done | simpl in Hlen; lia]. }
  rewrite group_by_count_fuel_step by (by destruct l).
  rewrite <- fmap_take, <- fmap_drop, length_fmap.
  destruct (decide (drop count l = [])) as [Hnil | Hrest].
  - rewrite Hnil. simpl. rewrite group_by_count_fuel_nil.
    apply drop_nil_inv in Hnil. rewrite take_ge by done.
    exists [], l. repeat split; try done.
    destruct l; [done | simpl; lia].
  - assert (Hgt : count < length l).
    { destruct (decide (count < length l)); [done|].
      exfalso. apply Hrest, drop_ge. lia. }
    destruct (IH (drop count l) Hrest) as (chunks & lst & Heq & Hcat & Hall & Hlst).
    { rewrite length_drop. lia. }
    rewrite Heq, length_take_le by lia.
    rewrite Nat.sub_diag. simpl. rewrite app_nil_r.
    exists (take count l :: chunks), lst. repeat split; try done; try lia.
    + simpl. rewrite <- app_assoc, Hcat. apply take_drop.
    + constructor; [|done]. rewrite length_take_le; lia.
Qed.

(** *** Slices of a concatenation *)

Lemma sum_list_take_lookup (cs : list nat) : ∀ i c,
  cs !! i = Some c → sum_list (take i cs) + c ≤ sum_list cs.
Proof.
  induction cs as [|c' cs IH]; intros [|i] c Hc; simpl in *;
    try discriminate.
  - injection Hc as ->. lia.
  - specialize (IH i c Hc). lia.
Qed.

Lemma concat_slice {A} (ls : list (list A)) : ∀ i l,
  ls !! i = Some l →
  take (length l) (drop (sum_list (take i (length <$> ls))) (concat ls)) = l.
Proof.
  induction ls as [|l' ls IH]; intros [|i] l Hl; simpl in *;
    try discriminate.
  - injection Hl as ->. by rewrite drop_0, take_app_length.
  - rewrite drop_app_add'; [by apply IH | done].
Qed.

Lemma concat_delete_nil {A} (ls : list (list A)) : ∀ i,
  ls !! i = Some [] → concat (delete i ls) = concat ls.
Proof.
  induction ls as [|l' ls IH]; intros [|i] Hl; simpl in *;
    try discriminate.
  - by injection Hl as ->.
  - by rewrite IH.
Qed.

Lemma concat_fmap_fmap {A B} (f : A → B) (ls : list (list A)) :
  concat (fmap (M:=list) f <$> ls) = f <$> concat ls.
Proof.
  induction ls as [|l ls IH]; [done|].
  rewrite !fmap_cons. cbn [concat]. by rewrite fmap_app, IH.
Qed.

Section Predictor.
Variable Instance : Type.
Variable tokenize : string → list Token.
Variable text_to_instance : list Token → list Z → Instance.
Variable forward_on_instances : list Instance → list Output.

Lemma strip_padding_Some (lst : list Instance) k :
  strip_padding Instance ((Some <$> lst) ++ replicate k None)
  = Some <$> lst.
Proof.
  unfold strip_padding. rewrite filter_app.
  replace (filter (λ o : option Instance, o ≠ None) (replicate k None))
    with (@nil (option Instance)).
  - rewrite app_nil_r. induction lst as [|x lst IH]; [done|].
    rewrite fmap_cons, filter_cons_True by done. by rewrite IH.
  - induction k as [|k IH]; [done|]. simpl.
    rewrite filter_cons_False by (intros H; by apply H). done.
Qed.

(** The batches are the chunks of the flattened instances, free of
    padding. *)
Lemma make_batches_chunks (flat : list Instance) batch_size :
  0 < batch_size → flat ≠ [] →
  ∃ chunks : list (list Instance),
    make_batches Instance flat batch_size
    = Ok (fmap (M:=list) Some <$> chunks)
    ∧ concat chunks = flat
    ∧ Forall (λ c, 0 < length c ≤ batch_size) chunks.
Proof.
  intros Hsize Hne. unfold make_batches, group_by_count.
  destruct batch_size as [|n]; [lia|].
  destruct (group_by_count_fuel_Some (S n) (length (Some <$> flat)) flat)
    as (chunks & lst & -> & Hcat & Hall & Hlst);
    [lia | done | by rewrite length_fmap |].
  unfold get_last. rewrite last_snoc. simpl.
  rewrite strip_padding_Some. unfold set_last.
  destruct (_ ++ [_]) as [|b bs] eqn:Hb.
  { by destruct chunks. }
  rewrite <- Hb. clear Hb. rewrite length_app. simpl.
  rewrite Nat.add_1_r. simpl.
  rewrite insert_app_r_alt by done. rewrite Nat.sub_diag. simpl.
  exists (chunks ++ [lst]). repeat split.
  - by rewrite fmap_app.
  - rewrite concat_app. simpl. by rewrite app_nil_r.
  - apply Forall_app. split.
    + eapply Forall_impl; [exact Hall|]. simpl. intros c ->. lia.
    + by constructor.
Qed.

Lemma run_model_Some (c : list Instance) :
  run_model Instance forward_on_instances (Some <$> c)
  = Ok (forward_on_instances c).
Proof. unfold run_model. by rewrite mapM_fmap_Some. Qed.

Lemma run_batches_chunks (chunks : list (list Instance)) :
  run_batches Instance forward_on_instances
    (fmap (M:=list) Some <$> chunks)
  = Ok (concat (forward_on_instances <$> chunks)).
Proof.
  unfold run_batches.
  cut (∀ acc,
         for_each (λ outputs batch,
                     out ← run_model Instance forward_on_instances batch;
                     Ok (outputs ++ out))
                  (fmap (M:=list) Some <$> chunks) acc
         = Ok (acc ++ concat (forward_on_instances <$> chunks))).
  { intros H. apply (H []). }
  induction chunks as [|c chunks IH]; intros acc; simpl.
  - by rewrite app_nil_r.
  - rewrite run_model_Some. simpl. rewrite IH. by rewrite app_assoc.
Qed.

(** *** The regrouping loops *)

Lemma update_Ok {A} (l : list A) i x f :
  l !! i = Some x → update l i f = Ok (<[i := f x]> l).
Proof. unfold update. by intros ->. Qed.

Lemma foldl_add_output d os :
  foldl add_output d os
  = {| verbs := verbs d ++ (make_verb_dict <$> os);
       words := match last os with
                | Some o => Some (o_words o)
                | None => words d
                end |}.
Proof.
  revert d. induction os as [|o os IH]; intros d; simpl.
  - rewrite app_nil_r. by destruct d.
  - rewrite IH. simpl. rewrite <- app_assoc. simpl. f_equal.
    destruct os as [|o' os]; [done|]. rewrite last_cons_cons.
    destruct (last (o' :: os)) eqn:Hlast; [done|].
    by apply last_None in Hlast.
Qed.

Lemma foldl_add_output_empty x os :
  os ≠ [] →
  foldl add_output empty_dict os = sentence_result tokenize x os.
Proof.
  intros Hne. rewrite foldl_add_output. unfold sentence_result.
  destruct os as [|o os]; [done|]. simpl.
  destruct (last (o :: os)) eqn:Hlast; [done|].
  by apply last_None in Hlast.
Qed.

Lemma verb_loop outs si c : ∀ start oi rd d,
  rd !! si = Some d →
  oi + c ≤ length outs →
  for_each (verb_body outs si) (seq start c) (oi, rd)
  = Ok (oi + c, <[si := foldl add_output d (take c (drop oi outs))]> rd).
Proof.
  induction c as [|c IH]; intros start oi rd d Hd Hlen; simpl.
  - rewrite Nat.add_0_r. by rewrite list_insert_id.
  - destruct (lookup_lt_is_Some_2 outs oi) as [o Ho]; [lia|].
    unfold getitem. rewrite Ho. simpl.
    rewrite (update_Ok rd si d) by done. simpl.
    pose proof (lookup_lt_Some _ _ _ Hd) as Hsi.
    rewrite (update_Ok _ si (set_words (o_words o) d))
      by (by apply list_lookup_insert_eq).
    simpl. rewrite list_insert_insert_eq.
    rewrite (IH (S start) (S oi) _ (add_output d o));
      [| by apply list_lookup_insert_eq; rewrite ?length_insert | lia].
    rewrite list_insert_insert_eq, (drop_S outs o oi Ho). simpl.
    do 2 f_equal. lia.
Qed.

Lemma regroup_loop inputs outs xs : ∀ cs pre done oi,
  inputs = pre ++ xs →
  length pre = length done →
  length xs = length cs →
  oi + sum_list cs ≤ length outs →
  for_each (sentence_body tokenize inputs outs)
    (zip (seq (length done) (length cs)) cs)
    (oi, done ++ ((λ _, empty_dict) <$> xs))
  = Ok (oi + sum_list cs, done ++ regroup tokenize xs cs (drop oi outs)).
Proof.
  induction xs as [|x xs IH]; intros [|c cs] pre done oi Hin Hpre Hlen Hsum;
    simpl in *; try discriminate.
  { by rewrite Nat.add_0_r. }
  assert (Hx : inputs !! length done = Some x).
  { rewrite Hin, <- Hpre. by apply list_lookup_middle. }
  assert (Hrd : (done ++ empty_dict :: ((λ _, empty_dict) <$> xs))
                  !! length done = Some empty_dict).
  { by apply list_lookup_middle. }
  assert (Hnext : ∀ r oi',
             oi' + sum_list cs ≤ length outs →
             for_each (sentence_body tokenize inputs outs)
               (zip (seq (S (length done)) (length cs)) cs)
               (oi', done ++ r :: ((λ _, empty_dict) <$> xs))
             = Ok (oi' + sum_list cs,
                   done ++ r :: regroup tokenize xs cs (drop oi' outs))).
  { intros r oi' Hle.
    specialize (IH cs (pre ++ [x]) (done ++ [r]) oi').
    rewrite !length_app, !Nat.add_1_r, <- !app_assoc in IH. simpl in IH.
    apply IH; [done | congruence | congruence | done]. }
  destruct (Nat.eqb_spec c 0) as [-> | Hc].
  - unfold getitem. rewrite Hx. simpl.
    rewrite (update_Ok _ _ _ _ Hrd). simpl.
    rewrite insert_app_r_alt, Nat.sub_diag by done. simpl.
    rewrite Hnext by (simpl in Hsum; lia). by rewrite drop_0.
  - erewrite (verb_loop outs (length done) c 0 oi); [| exact Hrd | lia].
    simpl.
    rewrite insert_app_r_alt, Nat.sub_diag by done. simpl.
    rewrite Hnext by lia.
    rewrite (foldl_add_output_empty x).
    + rewrite drop_drop. do 2 f_equal. lia.
    + intros Hnil. apply (f_equal length) in Hnil.
      rewrite length_take, length_drop in Hnil. simpl in Hnil. lia.
Qed.

(** *** The regrouping contract *)

Lemma verbs_sentence_result x os :
  verbs (sentence_result tokenize x os) = make_verb_dict <$> os.
Proof. by destruct os. Qed.

Lemma length_regroup xs : ∀ cs outs,
  length xs = length cs →
  length (regroup tokenize xs cs outs) = length xs.
Proof.
  induction xs as [|x xs IH]; intros [|c cs] outs Hlen;
    simpl in *; try done.
  rewrite IH; [done | congruence].
Qed.

Lemma regroup_lookup xs : ∀ cs outs i x c,
  xs !! i = Some x → cs !! i = Some c →
  regroup tokenize xs cs outs !! i
  = Some (sentence_result tokenize x
            (take c (drop (sum_list (take i cs)) outs))).
Proof.
  induction xs as [|x' xs IH]; intros [|c' cs] outs [|i] x c Hx Hc;
    simpl in *; try discriminate.
  - injection Hx as ->. injection Hc as ->. by rewrite drop_0.
  - rewrite (IH cs (drop c' outs) i x c Hx Hc). by rewrite drop_drop.
Qed.

Lemma regroup_verbs xs : ∀ cs outs,
  length xs = length cs →
  sum_list cs = length outs →
  concat (verbs <$> regroup tokenize xs cs outs) = make_verb_dict <$> outs.
Proof.
  induction xs as [|x xs IH]; intros [|c cs] outs Hlen Hsum;
    simpl in *; try discriminate.
  - by destruct outs.
  - rewrite verbs_sentence_result, IH.
    + by rewrite <- fmap_app, take_drop.
    + congruence.
    + rewrite length_drop. lia.
Qed.

Lemma regroup_nil xs : ∀ cs,
  length xs = length cs →
  regroup tokenize xs cs []
  = (λ x, {| verbs := []; words := Some (text <$> tokenize x) |}) <$> xs.
Proof.
  induction xs as [|x xs IH]; intros [|c cs] Hlen;
    simpl in *; try discriminate; [done|].
  rewrite take_nil, drop_nil, IH; [done | congruence].
Qed.

Lemma length_concat_sum {A} (ls : list (list A)) :
  length (concat ls) = sum_list (length <$> ls).
Proof.
  induction ls as [|l ls IH]; [done|]. simpl.
  by rewrite length_app, IH.
Qed.

(** *** Instance splitting *)

Lemma token_loop_no_verb all ws ts :
  Forall (λ t, pos_ t ≠ "VERB") ts →
  ∀ start acc,
    foldl (token_body Instance text_to_instance all ws) acc
          (zip (seq start (length ts)) ts) = acc.
Proof.
  induction 1 as [|t ts Ht _ IH]; intros start acc; simpl; [done|].
  destruct (String.eqb_spec (pos_ t) "VERB"); [done | apply IH].
Qed.

Lemma tokens_to_instances_no_verb tokens :
  Forall (λ t, pos_ t ≠ "VERB") tokens →
  tokens_to_instances Instance text_to_instance tokens = [].
Proof. intros Hno. by apply token_loop_no_verb. Qed.

(** One instance per verb token, in token order. *)
Lemma token_loop_verbs all ws ts : ∀ start acc,
  foldl (token_body Instance text_to_instance all ws) acc
        (zip (seq start (length ts)) ts)
  = acc ++ ((λ iw, text_to_instance all (<[iw.1 := 1%Z]> ((λ _, 0%Z) <$> ws)))
              <$> filter (λ iw, pos_ iw.2 = "VERB")
                    (zip (seq start (length ts)) ts)).
Proof.
  induction ts as [|t ts IH]; intros start acc; simpl.
  - by rewrite app_nil_r.
  - rewrite IH. destruct (String.eqb_spec (pos_ t) "VERB") as [Hv|Hv].
    + rewrite filter_cons_True by done. by rewrite <- app_assoc.
    + by rewrite filter_cons_False.
Qed.

Lemma tokens_to_instances_verbs tokens :
  tokens_to_instances Instance text_to_instance tokens
  = (λ iw, text_to_instance tokens
             (<[iw.1 := 1%Z]> ((λ _, 0%Z) <$> (text <$> tokens))))
      <$> filter (λ iw, pos_ iw.2 = "VERB") (enumerate tokens).
Proof. apply (token_loop_verbs tokens (text <$> tokens) tokens 0 []). Qed.

(** *** [predict_batch_json] *)

Local Abbreviation instances_of inputs :=
  (_sentence_to_srl_instances Instance tokenize text_to_instance <$> inputs).

Lemma dispatched_batches_chunks inputs :
  ∃ chunks : list (list Instance),
    dispatched_batches Instance tokenize text_to_instance inputs
    = Ok (fmap (M:=list) Some <$> chunks)
    ∧ concat chunks = concat (instances_of inputs)
    ∧ Forall (λ c, 0 < length c ≤ length inputs) chunks.
Proof.
  unfold dispatched_batches.
  destruct (concat (instances_of inputs)) as [|a flat] eqn:Hflat.
  - exists []. by repeat split.
  - apply make_batches_chunks; [|done].
    destruct inputs; [discriminate | simpl; lia].
Qed.

Lemma flattened_outputs_chunks inputs :
  ∃ chunks : list (list Instance),
    dispatched_batches Instance tokenize text_to_instance inputs
    = Ok (fmap (M:=list) Some <$> chunks)
    ∧ concat chunks = concat (instances_of inputs)
    ∧ flattened_outputs Instance tokenize text_to_instance
        forward_on_instances inputs
      = Ok (concat (forward_on_instances <$> chunks)).
Proof.
  destruct (dispatched_batches_chunks inputs) as (chunks & Hb & Hcat & _).
  exists chunks. repeat split; try done.
  unfold flattened_outputs. rewrite Hb. simpl. apply run_batches_chunks.
Qed.

Hypothesis model_length :
  ∀ batch, length (forward_on_instances batch) = length batch.

Lemma length_outputs (chunks : list (list Instance)) :
  length (concat (forward_on_instances <$> chunks))
  = length (concat chunks).
Proof.
  induction chunks as [|c chunks IH]; [done|].
  rewrite fmap_cons. cbn [concat].
  by rewrite !length_app, IH, model_length.
Qed.

(** [predict_batch_json] returns the regrouping of the flattened model
    outputs by the recorded instance counts. *)
Lemma predict_batch_json_regroup inputs :
  ∃ (chunks : list (list Instance)) (outs : list Output),
    dispatched_batches Instance tokenize text_to_instance inputs
    = Ok (fmap (M:=list) Some <$> chunks)
    ∧ concat chunks = concat (instances_of inputs)
    ∧ outs = concat (forward_on_instances <$> chunks)
    ∧ flattened_outputs Instance tokenize text_to_instance
        forward_on_instances inputs = Ok outs
    ∧ length outs = length (concat (instances_of inputs))
    ∧ predict_batch_json Instance tokenize text_to_instance
        forward_on_instances inputs
      = Ok (regroup tokenize inputs (length <$> instances_of inputs) outs).
Proof.
  destruct (flattened_outputs_chunks inputs) as (chunks & Hb & Hcat & Hout).
  exists chunks, (concat (forward_on_instances <$> chunks)).
  pose proof (length_outputs chunks) as Hlen. rewrite Hcat in Hlen.
  repeat split; try done.
  unfold predict_batch_json.
  unfold dispatched_batches in Hb.
  destruct (concat (instances_of inputs)) as [|a flat] eqn:Hflat.
  - injection Hb as Hb. destruct chunks; [|discriminate]. simpl.
    rewrite regroup_nil; [done|]. by rewrite !length_fmap.
  - rewrite Hb. simpl. rewrite run_batches_chunks. simpl.
    unfold enumerate.
    pose proof (regroup_loop inputs (concat (forward_on_instances <$> chunks))
                  inputs (length <$> instances_of inputs) [] [] 0) as Hloop.
    simpl in Hloop. unfold empty_dict in Hloop.
    rewrite Hloop; [done | done | done | |].
    + by rewrite !length_fmap.
    + rewrite <- length_concat_sum, Hflat. simpl in *. lia.
Qed.

(** C2. With a model that returns one output per instance,
    [predict_batch_json] returns one result per input sentence; the
    verb list of the [i]-th result has as many entries as the [i]-th
    sentence has instances, and its entries are built, in order, from the
    slice of the flattened model outputs that belongs to that sentence:
    nothing is dropped or reordered. For a model that treats every
    instance on its own, the [j]-th verb of a sentence is the output for
    its [j]-th instance. *)
Theorem predict_batch_json_regroups_in_order (inputs : list string) :
  ∃ results outs,
    predict_batch_json Instance tokenize text_to_instance
      forward_on_instances inputs = Ok results
    ∧ flattened_outputs Instance tokenize text_to_instance
        forward_on_instances inputs = Ok outs
    ∧ length outs = length (concat (instances_of inputs))
    ∧ length results = length inputs
    ∧ (∀ i r insts,
          results !! i = Some r → instances_of inputs !! i = Some insts →
          length (verbs r) = length insts
          ∧ verbs r
            = make_verb_dict
                <$> take (length insts)
                      (drop (sum_list
                               (take i (length <$> instances_of inputs)))
                            outs))
    ∧ concat (verbs <$> results) = make_verb_dict <$> outs
    ∧ (∀ infer : Instance → Output,
          (∀ batch, forward_on_instances batch = infer <$> batch) →
          outs = infer <$> concat (instances_of inputs)
          ∧ ∀ i r insts,
              results !! i = Some r →
              instances_of inputs !! i = Some insts →
              verbs r = (λ x, make_verb_dict (infer x)) <$> insts).
Proof.
  destruct (predict_batch_json_regroup inputs)
    as (chunks & outs & Hb & Hcat & Houts & Hflat & Hlen & Hres).
  set (ips := instances_of inputs) in *.
  assert (Hslice : ∀ i r insts,
             regroup tokenize inputs (length <$> ips) outs !! i = Some r →
             ips !! i = Some insts →
             verbs r = make_verb_dict
                         <$> take (length insts)
                               (drop (sum_list (take i (length <$> ips))) outs)).
  { intros i r insts Hr Hi.
    assert (Hx : ∃ x, inputs !! i = Some x).
    { apply lookup_lt_is_Some. apply lookup_lt_Some in Hi.
      unfold ips in Hi. by rewrite length_fmap in Hi. }
    destruct Hx as [x Hx].
    rewrite (regroup_lookup inputs _ outs i x (length insts)) in Hr;
      [| done | by rewrite list_lookup_fmap, Hi].
    injection Hr as <-. apply verbs_sentence_result. }
  assert (Hpoint : ∀ infer : Instance → Output,
             (∀ batch, forward_on_instances batch = infer <$> batch) →
             outs = infer <$> concat ips).
  { intros infer Hinfer.
    rewrite Houts, <- Hcat, <- concat_fmap_fmap. f_equal.
    apply list_fmap_ext. intros _ c _. apply Hinfer. }
  exists (regroup tokenize inputs (length <$> ips) outs), outs.
  split; [done|]. split; [done|]. split; [done|].
  split; [|split; [|split]].
  - rewrite length_regroup; [done|]. unfold ips. by rewrite !length_fmap.
  - intros i r insts Hr Hi. split; [|by apply Hslice].
    rewrite (Hslice i r insts) by done.
    rewrite length_fmap, length_take, length_drop.
    pose proof (sum_list_take_lookup (length <$> ips) i (length insts)) as Hle.
    rewrite list_lookup_fmap, Hi in Hle. specialize (Hle eq_refl).
    rewrite <- length_concat_sum in Hle. lia.
  - apply regroup_verbs.
    + unfold ips. by rewrite !length_fmap.
    + by rewrite <- length_concat_sum.
  - intros infer Hinfer. split; [by apply Hpoint|].
    intros i r insts Hr Hi.
    rewrite (Hslice i r insts) by done.
    rewrite (Hpoint infer Hinfer), <- fmap_drop, <- fmap_take,
      concat_slice by done.
    by rewrite <- list_fmap_compose.
Qed.

(** C6. The batches handed to the model hold no padding: they are the
    flattened instances cut into chunks. With a model that returns one
    output per instance, the flattened outputs have exactly the length
    of the flattened instances. *)
Theorem predict_batch_json_no_padding (inputs : list string) :
  ∃ batches outs,
    dispatched_batches Instance tokenize text_to_instance inputs
    = Ok batches
    ∧ Forall (Forall (λ instance, instance ≠ None)) batches
    ∧ concat batches = Some <$> concat (instances_of inputs)
    ∧ flattened_outputs Instance tokenize text_to_instance
        forward_on_instances inputs = Ok outs
    ∧ length outs = length (concat (instances_of inputs))
    ∧ predict_batch_json Instance tokenize text_to_instance
        forward_on_instances inputs
      = Ok (regroup tokenize inputs (length <$> instances_of inputs) outs).
Proof.
  destruct (predict_batch_json_regroup inputs)
    as (chunks & outs & Hb & Hcat & Houts & Hflat & Hlen & Hres).
  exists (fmap (M:=list) Some <$> chunks), outs.
  repeat split; try done.
  - apply Forall_fmap, Forall_forall. intros c _.
    apply Forall_fmap, Forall_forall. by intros x _.
  - by rewrite concat_fmap_fmap, Hcat.
Qed.

(** C7. A sentence without a verb token gets its tokenized words and an
    empty verb list, the call does not fail (the model returning one
    output per instance), and the sentence adds no instance to the
    batches. *)
Theorem predict_batch_json_no_verb (inputs : list string) (i : nat)
    (s : string) :
  inputs !! i = Some s →
  Forall (λ t, pos_ t ≠ "VERB") (tokenize s) →
  ∃ results (chunks : list (list Instance)),
    predict_batch_json Instance tokenize text_to_instance
      forward_on_instances inputs = Ok results
    ∧ results !! i
      = Some {| verbs := []; words := Some (text <$> tokenize s) |}
    ∧ _sentence_to_srl_instances Instance tokenize text_to_instance s = []
    ∧ dispatched_batches Instance tokenize text_to_instance inputs
      = Ok (fmap (M:=list) Some <$> chunks)
    ∧ concat chunks = concat (instances_of (delete i inputs)).
Proof.
  intros Hs Hno.
  destruct (predict_batch_json_regroup inputs)
    as (chunks & outs & Hb & Hcat & Houts & Hflat & Hlen & Hres).
  assert (Hnil : _sentence_to_srl_instances Instance tokenize
                   text_to_instance s = []).
  { by apply tokens_to_instances_no_verb. }
  exists (regroup tokenize inputs (length <$> instances_of inputs) outs),
    chunks.
  repeat split; try done.
  - rewrite (regroup_lookup inputs _ outs i s 0); [done | done |].
    rewrite !list_lookup_fmap, Hs. simpl. by rewrite Hnil.
  - rewrite Hcat, list_fmap_delete. symmetry.
    apply concat_delete_nil. rewrite list_lookup_fmap, Hs. simpl.
    by rewrite Hnil.
Qed.

End Predictor.

(** *** Runs on sample sentences *)

Lemma model_length batch : length (Samples.model batch) = length batch.
Proof. apply length_fmap. Qed.

Example group_by_count_pads :
  group_by_count [1; 2; 3; 4; 5] 2 0 = [[1; 2]; [3; 4]; [5; 0]]
  ∧ group_by_count [1; 2; 3; 4] 2 0 = [[1; 2]; [3; 4]]
  ∧ group_by_count [1; 2] 0 0 = [].
Proof. repeat split. Qed.

Example make_batches_strips :
  make_batches nat [1; 2; 3; 4; 5] 2
  = Ok [[Some 1; Some 2]; [Some 3; Some 4]; [Some 5]].
Proof. reflexivity. Qed.

Example predict_batch_json_sample :
  predict_batch_json Samples.instance Samples.tokenize
    Samples.text_to_instance Samples.model Samples.sentences
  = Ok [ {| verbs :=
              [ {| verb := "came"; description := "He [MOVE: came] and left";
                   tags := ["O"; "B-V"; "O"; "O"]; frame := "MOVE" |};
                {| verb := "left"; description := "He came and [MOVE: left]";
                   tags := ["O"; "O"; "O"; "B-V"]; frame := "MOVE" |} ];
            words := Some ["He"; "came"; "and"; "left"] |};
         {| verbs := []; words := Some ["Oh"; "well"] |};
         {| verbs :=
              [ {| verb := "sees";
                   description := "The cat [MOVE: sees] the mouse";
                   tags := ["O"; "O"; "B-V"; "O"; "O"]; frame := "MOVE" |} ];
            words := Some ["The"; "cat"; "sees"; "the"; "mouse"] |} ].
Proof. vm_compute. reflexivity. Qed.

Lemma predict_batch_json_regroups_in_order_witness :
  ∃ results outs,
    predict_batch_json Samples.instance Samples.tokenize
      Samples.text_to_instance Samples.model Samples.sentences = Ok results
    ∧ flattened_outputs Samples.instance Samples.tokenize
        Samples.text_to_instance Samples.model Samples.sentences = Ok outs
    ∧ length outs = 3
    ∧ length results = 3
    ∧ concat (verbs <$> results) = make_verb_dict <$> outs.
Proof.
  destruct (predict_batch_json_regroups_in_order
              Samples.instance Samples.tokenize Samples.text_to_instance
              Samples.model model_length Samples.sentences)
    as (results & outs & Hres & Houts & Hlen & Hn & _ & Hcat & _).
  exists results, outs. repeat split; assumption.
Defined.

Lemma predict_batch_json_no_padding_witness :
  ∃ batches outs,
    dispatched_batches Samples.instance Samples.tokenize
      Samples.text_to_instance Samples.sentences = Ok batches
    ∧ Forall (Forall (λ instance, instance ≠ None)) batches
    ∧ flattened_outputs Samples.instance Samples.tokenize
        Samples.text_to_instance Samples.model Samples.sentences = Ok outs
    ∧ length outs = 3.
Proof.
  destruct (predict_batch_json_no_padding
              Samples.instance Samples.tokenize Samples.text_to_instance
              Samples.model model_length Samples.sentences)
    as (batches & outs & Hb & Hsome & _ & Houts & Hlen & _).
  exists batches, outs. repeat split; assumption.
Defined.

Lemma predict_batch_json_no_verb_witness :
  ∃ results,
    predict_batch_json Samples.instance Samples.tokenize
      Samples.text_to_instance Samples.model Samples.sentences = Ok results
    ∧ results !! 1 = Some {| verbs := []; words := Some ["Oh"; "well"] |}.
Proof.
  destruct (predict_batch_json_no_verb
              Samples.instance Samples.tokenize Samples.text_to_instance
              Samples.model model_length Samples.sentences 1 "Oh well")
    as (results & chunks & Hres & Hi & _).
  - reflexivity.
  - repeat constructor; discriminate.
  - exists results. split; assumption.
Defined.

End PredictorFacts.

(** ** More on the description renderer *)

Module RendererExtra.
Import Stdlib.Strings.Ascii.
Import PyStr Renderer RendererPieces.

Lemma sapp_nil_r (s : string) : s +:+ EmptyString = s.
Proof.
  induction s as [|c s IH]; [done|].
  change (String c (s +:+ EmptyString) = String c s). by rewrite IH.
Qed.

Lemma sapp_assoc (a b c : string) : (a +:+ b) +:+ c = a +:+ (b +:+ c).
Proof.
  induction a as [|x a IH]; [done|].
  change (String x ((a +:+ b) +:+ c) = String x (a +:+ (b +:+ c))).
  by rewrite IH.
Qed.

Lemma make_srl_string_pieces words tags frame :
  make_srl_string words tags frame = join " " (pieces words tags frame).
Proof. reflexivity. Qed.

(** The window only grows: a prefix of it is carried along unchanged. *)
Lemma flush_app w0 w chunk : flush (w0 ++ w) chunk = w0 ++ flush w chunk.
Proof. destruct chunk; simpl; [done|]. by rewrite app_assoc. Qed.

Lemma step_window_app frame w0 w chunk x :
  step frame (w0 ++ w, chunk) x
  = (w0 ++ (step frame (w, chunk) x).1, (step frame (w, chunk) x).2).
Proof.
  destruct x as [token tag]. unfold step.
  destruct (startswith tag "I-"); [done|].
  rewrite flush_app.
  destruct (startswith tag "B-"); [done|].
  destruct (String.eqb tag "O"); simpl; [|done].
  by rewrite app_assoc.
Qed.

Lemma run_window_app frame l : ∀ w0 w chunk,
  run frame (w0 ++ w, chunk) l
  = (w0 ++ (run frame (w, chunk) l).1, (run frame (w, chunk) l).2).
Proof.
  induction l as [|x l IH]; intros w0 w chunk; [done|].
  change (run frame ?st (x :: l)) with (run frame (step frame st x) l).
  rewrite step_window_app.
  destruct (step frame (w, chunk) x) as [w' c']. simpl. apply IH.
Qed.

(** A tag that does not continue a span closes the open one first. *)
Lemma step_closes frame window chunk token tag :
  startswith tag "I-" = false →
  step frame (window, chunk) (token, tag)
  = (flush window chunk ++ (step frame ([], []) (token, tag)).1,
     (step frame ([], []) (token, tag)).2).
Proof.
  intros HI. unfold step. rewrite HI. simpl.
  destruct (startswith tag "B-"); simpl; [by rewrite app_nil_r|].
  destruct (String.eqb tag "O"); simpl; [done | by rewrite app_nil_r].
Qed.

Lemma run_all_O frame tags : ∀ words window,
  Forall (λ t, t = "O") tags →
  run frame (window, []) (zip words tags)
  = (window ++ take (length tags) words, []).
Proof.
  induction tags as [|t tags IH]; intros words window Hall.
  - destruct words; simpl; by rewrite app_nil_r.
  - destruct words as [|w words]; [simpl; by rewrite app_nil_r|].
    inversion Hall as [|? ? -> Hrest]; subst.
    change (run frame (window, []) (zip (w :: words) ("O" :: tags)))
      with (run frame (window ++ [w], []) (zip words tags)).
    rewrite IH by done. simpl. by rewrite <- app_assoc.
Qed.

(** X1. When every tag is [O] the rendering is the words themselves,
    joined by single spaces (as many words as there are tags). *)
Theorem make_srl_string_all_O (words tags : list string) (frame : string) :
  Forall (λ t, t = "O") tags →
  make_srl_string words tags frame = join " " (take (length tags) words).
Proof.
  intros Hall. unfold make_srl_string, finish.
  by rewrite (run_all_O frame tags words []).
Qed.

Lemma make_srl_string_all_O_witness :
  make_srl_string ["Oh"; "well"; "then"] ["O"; "O"] "F" = "Oh well".
Proof.
  apply (make_srl_string_all_O ["Oh"; "well"; "then"] ["O"; "O"] "F").
  repeat constructor.
Defined.

(** X2. Words without a tag and tags without a word are ignored: the
    rendering only reads the common prefix of the two lists, and no length
    mismatch is reported. *)
Theorem make_srl_string_truncates (words tags : list string) (frame : string) :
  make_srl_string words tags frame
  = make_srl_string (take (length tags) words) (take (length words) tags) frame.
Proof. unfold make_srl_string. by rewrite zip_with_take_both. Qed.

Lemma prefix_V_other (c : ascii) (s : string) :
  c ≠ "V"%char → String.prefix "V" (String c s) = false.
Proof.
  intros Hc. cbn [String.prefix].
  destruct (ascii_dec "V" c) as [Heq|_]; [by subst | done].
Qed.

Lemma replace_from_cons (c : ascii) (s new : string) :
  replace_from 0 (String c s) "V" new
  = if String.prefix "V" (String c s)
    then new +:+ replace_from 0 s "V" new
    else String c (replace_from 0 s "V" new).
Proof. reflexivity. Qed.

Lemma replace_absent (s new : string) :
  "V"%char ∉ chars s → replace s "V" new = s.
Proof.
  unfold replace, chars.
  induction s as [|c s IH]; intros Hno; [done|].
  cbn [String.list_ascii_of_string] in Hno.
  apply not_elem_of_cons in Hno as [Hc Hs].
  rewrite replace_from_cons, prefix_V_other by done.
  by rewrite IH.
Qed.

Lemma step_B_plain (frame role token : string) (window chunk : list string) :
  "V"%char ∉ chars role →
  step frame (window, chunk) (token, "B-" +:+ role)
  = (flush window chunk, [role +:+ ": " +:+ token]).
Proof.
  intros Hno. unfold step.
  change ("B-" +:+ role) with (String "B" (String "-" role)).
  rewrite replace_absent.
  - assert (HI : startswith (String "B" (String "-" role)) "I-" = false)
      by (vm_compute; reflexivity).
    assert (HB : ∀ r, startswith (String "B" (String "-" r)) "B-" = true)
      by (intros []; reflexivity).
    by rewrite HI, HB.
  - unfold chars. simpl. intros Hin.
    apply elem_of_cons in Hin as [Heq|Hin]; [discriminate|].
    apply elem_of_cons in Hin as [Heq|Hin]; [discriminate|]. by apply Hno.
Qed.

(** X3. A [B-] tag whose role label holds no character [V] opens a span
    seeded with the unmodified role label, and the tag [B-V] opens a span
    seeded with the frame. *)
Theorem step_B_role (frame role token : string) (window chunk : list string) :
  "V"%char ∉ chars role →
  step frame (window, chunk) (token, "B-" +:+ role)
  = (flush window chunk, [role +:+ ": " +:+ token])
  ∧ step frame (window, chunk) (token, "B-V")
    = (flush window chunk, [frame +:+ ": " +:+ token]).
Proof.
  intros Hno. split; [by apply step_B_plain|].
  unfold step. simpl. by rewrite sapp_nil_r.
Qed.

Lemma step_B_role_witness :
  step "RUN" (["He"], []) ("fast", "B-" +:+ "ARGM-MNR")
  = (["He"], ["ARGM-MNR: fast"]).
Proof.
  refine (proj1 (step_B_role "RUN" "ARGM-MNR" "fast" ["He"] [] _)).
  unfold chars. simpl. intros Hin.
  repeat (apply elem_of_cons in Hin as [Heq|Hin]; [discriminate|]).
  by apply elem_of_nil in Hin.
Defined.

Lemma run_closes frame token tag l window chunk :
  startswith tag "I-" = false →
  run frame (window, chunk) ((token, tag) :: l)
  = (flush window chunk ++ (run frame ([], []) ((token, tag) :: l)).1,
     (run frame ([], []) ((token, tag) :: l)).2).
Proof.
  intros HI.
  change (run frame ?st ((token, tag) :: l))
    with (run frame (step frame st (token, tag)) l).
  rewrite (step_closes frame window chunk) by done.
  destruct (step frame ([], []) (token, tag)) as [w' c'] eqn:Hstep.
  cbn [fst snd].
  rewrite (run_window_app frame l (flush window chunk) w' c').
  done.
Qed.

(** X4. The rendering is compositional at span boundaries: when the second
    part of a tag sequence does not begin with an [I-] tag, the pieces of
    the whole are the pieces of the first part followed by the pieces of the
    second part. *)
Theorem pieces_app (ws1 ts1 ws2 ts2 : list string) (frame : string) :
  length ws1 = length ts1 →
  (∀ t, head ts2 = Some t → startswith t "I-" = false) →
  pieces (ws1 ++ ws2) (ts1 ++ ts2) frame
  = pieces ws1 ts1 frame ++ pieces ws2 ts2 frame.
Proof.
  intros Hlen Hhead. unfold pieces.
  rewrite zip_with_app by done. rewrite RendererFacts.run_app.
  destruct (run frame ([], []) (zip ws1 ts1)) as [window chunk].
  destruct ws2 as [|w ws2], ts2 as [|t ts2]; simpl zip_with;
    try (simpl; by rewrite app_nil_r).
  rewrite run_closes by (by apply Hhead).
  cbn [fst snd]. by rewrite flush_app.
Qed.

Lemma pieces_app_witness :
  pieces (["The"; "cat"] ++ ["sat"]) (["B-ARG0"; "I-ARG0"] ++ ["B-V"]) "SIT"
  = pieces ["The"; "cat"] ["B-ARG0"; "I-ARG0"] "SIT"
    ++ pieces ["sat"] ["B-V"] "SIT".
Proof.
  apply (pieces_app ["The"; "cat"] ["B-ARG0"; "I-ARG0"] ["sat"] ["B-V"] "SIT").
  - reflexivity.
  - intros t [= <-]. reflexivity.
Defined.

Lemma run_all_I frame tags : ∀ words window chunk,
  Forall (λ t, startswith t "I-" = true) tags →
  run frame (window, chunk) (zip words tags)
  = (window, chunk ++ take (length tags) words).
Proof.
  induction tags as [|t tags IH]; intros words window chunk Hall.
  - destruct words; simpl; by rewrite app_nil_r.
  - destruct words as [|w words]; [simpl; by rewrite app_nil_r|].
    inversion Hall as [|? ? Ht Hrest]; subst.
    change (run frame (window, chunk) (zip (w :: words) (t :: tags)))
      with (run frame (step frame (window, chunk) (w, t)) (zip words tags)).
    unfold step. rewrite Ht, IH by done. simpl. by rewrite <- app_assoc.
Qed.

(** X5. A well-formed span, a [B-] tag with a role label free of [V]
    followed by [I-] tags only, is rendered as one bracket holding the role
    label and the words of the span. *)
Theorem make_srl_string_span (role frame w0 : string) (ws its : list string) :
  "V"%char ∉ chars role →
  Forall (λ t, startswith t "I-" = true) its →
  length ws = length its →
  make_srl_string (w0 :: ws) (("B-" +:+ role) :: its) frame
  = "[" +:+ role +:+ ": " +:+ join " " (w0 :: ws) +:+ "]".
Proof.
  intros Hno Hits Hlen. unfold make_srl_string, finish.
  change (run frame ([], []) (zip (w0 :: ws) (("B-" +:+ role) :: its)))
    with (run frame (step frame ([], []) (w0, "B-" +:+ role)) (zip ws its)).
  rewrite (step_B_plain frame role w0 [] [] Hno).
  cbn [flush]. rewrite run_all_I by done.
  rewrite <- Hlen, firstn_all. cbn [fst snd app flush].
  cbn [join]. destruct ws as [|w1 ws]; by rewrite !sapp_assoc.
Qed.

Lemma make_srl_string_span_witness :
  make_srl_string ("the" :: ["big"; "cat"]) (("B-" +:+ "ARG1") :: ["I-ARG1"; "I-ARG1"]) "SEE"
  = "[ARG1: the big cat]".
Proof.
  apply (make_srl_string_span "ARG1" "SEE" "the" ["big"; "cat"] ["I-ARG1"; "I-ARG1"]).
  - unfold chars. simpl. intros Hin.
    repeat (apply elem_of_cons in Hin as [Heq|Hin]; [discriminate|]).
    by apply elem_of_nil in Hin.
  - repeat constructor.
  - reflexivity.
Defined.

End RendererExtra.

(** ** The Lexicon file *)

Module LexiconFacts.
Import Stdlib.Strings.Ascii.
Import Lexicon.

Example split_sample :
  split "  see   SEE	PERCEIVE
" = ["see"; "SEE"; "PERCEIVE"].
Proof. reflexivity. Qed.

Lemma add_line_Ok d l d' :
  add_line d l = Ok d' →
  ∃ k v, split l = k :: v ∧ d' = <[k := default [] (d !! k) ++ v]> d.
Proof.
  unfold add_line. destruct (split l) as [|k v]; [discriminate|].
  intros [= <-]. eauto.
Qed.

Lemma add_line_error d l e : add_line d l = Raise e → e = ValueError ∧ split l = [].
Proof.
  unfold add_line. destruct (split l) as [|k v]; [|discriminate].
  by intros [= <-].
Qed.

(** Reading from a dictionary already filled: the lookups grow by the
    values of the lines read. *)
Lemma read_from_lookup file : ∀ d,
  Forall (λ l, split l ≠ []) file →
  ∃ d', for_each add_line file d = Ok d'
        ∧ (∀ k, default [] (d' !! k) = default [] (d !! k) ++ values_of k file)
        ∧ (∀ k, d' !! k = None ↔ d !! k = None ∧ k ∉ keys_of file).
Proof.
  induction file as [|l file IH]; intros d Hall.
  - exists d. split; [done|]. split.
    + intros k. unfold values_of. simpl. by rewrite app_nil_r.
    + intros k. unfold keys_of. simpl. rewrite elem_of_nil. tauto.
  - inversion Hall as [|? ? Hl Hrest]; subst.
    destruct (split l) as [|k0 v0] eqn:Hsplit; [done|].
    assert (Hadd : add_line d l = Ok (<[k0 := default [] (d !! k0) ++ v0]> d)).
    { unfold add_line. by rewrite Hsplit. }
    destruct (IH (<[k0 := default [] (d !! k0) ++ v0]> d) Hrest)
      as (d' & Hd' & Hval & Hnone).
    exists d'. split; [cbn [for_each]; rewrite Hadd; exact Hd'|]. split.
    + intros k. rewrite Hval. unfold values_of. cbn [fmap list_fmap concat].
      fold (values_of k file). rewrite Hsplit.
      destruct (decide (k0 = k)) as [->|Hne].
      * rewrite lookup_insert_eq. simpl. by rewrite <- app_assoc.
      * by rewrite lookup_insert_ne.
    + intros k. rewrite Hnone. unfold keys_of. cbn [omap list_omap].
      fold (keys_of file). rewrite Hsplit. simpl.
      rewrite not_elem_of_cons.
      destruct (decide (k0 = k)) as [->|Hne].
      * rewrite lookup_insert_eq. split; [by intros [? _] | by intros [_ [? _]]].
      * rewrite lookup_insert_ne by done. split.
        -- intros [? ?]. repeat split; [done | congruence | done].
        -- intros [? [? ?]]. done.
Qed.

(** X6. When no line of the file is blank, [read_dictionary] returns, and
    the entry of a key is the concatenation, in file order, of the values of
    all lines that start with that key: lines with the same key accumulate.
    A key that starts no line has no entry. *)
Theorem read_dictionary_lookup (file : list string) :
  Forall (λ l, split l ≠ []) file →
  ∃ d, read_dictionary file = Ok d
       ∧ (∀ k, k ∈ keys_of file → d !! k = Some (values_of k file))
       ∧ (∀ k, k ∉ keys_of file → d !! k = None).
Proof.
  intros Hall.
  destruct (read_from_lookup file ∅ Hall) as (d & Hd & Hval & Hnone).
  exists d. split; [done|]. split.
  - intros k Hk. specialize (Hval k). rewrite lookup_empty in Hval.
    simpl in Hval. destruct (d !! k) as [v|] eqn:Hdk.
    + simpl in Hval. by rewrite Hval.
    + apply Hnone in Hdk as [_ Hno]. contradiction.
  - intros k Hk. apply Hnone. by rewrite lookup_empty.
Qed.

Lemma read_dictionary_lookup_witness :
  ∃ d, read_dictionary ["see SEE"; "do ACT"; "see PERCEIVE EAT"] = Ok d
       ∧ d !! "see" = Some ["SEE"; "PERCEIVE"; "EAT"]
       ∧ d !! "walk" = None.
Proof.
  destruct (read_dictionary_lookup ["see SEE"; "do ACT"; "see PERCEIVE EAT"])
    as (d & Hd & Hin & Hout).
  - repeat constructor; discriminate.
  - exists d. split; [done|]. split.
    + apply (Hin "see"). apply list_elem_of_In. simpl. tauto.
    + apply (Hout "walk"). intros Hk. apply list_elem_of_In in Hk. simpl in Hk.
      intuition discriminate.
Defined.

(** *** Blank lines *)

Lemma split_from_blank (l : string) :
  Forall (λ c, is_space c = true) (String.list_ascii_of_string l) →
  split_from EmptyString l = [].
Proof.
  induction l as [|c l IH]; intros Hall; [done|].
  cbn [String.list_ascii_of_string] in Hall.
  inversion Hall as [|? ? Hc Hrest]; subst.
  cbn [split_from]. rewrite Hc. by apply IH.
Qed.

Lemma read_from_blank file l : ∀ d,
  l ∈ file → split l = [] →
  for_each add_line file d = Raise ValueError.
Proof.
  induction file as [|l0 file IH]; intros d Hin Hblank.
  - by apply elem_of_nil in Hin.
  - cbn [for_each]. destruct (add_line d l0) as [d0|e] eqn:Hadd.
    + apply add_line_Ok in Hadd as (k & v & Hsplit & _).
      apply elem_of_cons in Hin as [->|Hin]; [congruence|].
      by apply IH.
    + apply add_line_error in Hadd as [-> _]. done.
Qed.

(** X7. A line that holds only whitespace, an empty last line for example,
    makes [read_dictionary] fail with [ValueError], whatever the other lines
    are. *)
Theorem read_dictionary_blank_line (file : list string) (l : string) :
  l ∈ file →
  Forall (λ c, is_space c = true) (String.list_ascii_of_string l) →
  read_dictionary file = Raise ValueError.
Proof.
  intros Hin Hblank. apply (read_from_blank file l); [done|].
  by apply split_from_blank.
Qed.

Lemma read_dictionary_blank_line_witness :
  read_dictionary ["see SEE"; "  "; "do ACT"] = Raise ValueError.
Proof.
  apply (read_dictionary_blank_line ["see SEE"; "  "; "do ACT"] "  ").
  - apply list_elem_of_In. simpl. tauto.
  - repeat constructor.
Defined.

(** *** Files read one after the other *)

Lemma read_from_Ok file : ∀ d d',
  for_each add_line file d = Ok d' → Forall (λ l, split l ≠ []) file.
Proof.
  induction file as [|l file IH]; intros d d' Hread; [constructor|].
  cbn [for_each] in Hread.
  destruct (add_line d l) as [d0|e] eqn:Hadd; [|discriminate].
  apply add_line_Ok in Hadd as (k & v & Hsplit & _).
  constructor; [by rewrite Hsplit | by eapply IH].
Qed.

Lemma values_of_app k f1 f2 :
  values_of k (f1 ++ f2) = values_of k f1 ++ values_of k f2.
Proof. unfold values_of. by rewrite fmap_app, concat_app. Qed.

(** X8. Entries accumulate and are never overwritten: the Lexicon read from
    two files one after the other gives every lemma its candidates from the
    first file followed by its candidates from the second. *)
Theorem read_dictionary_app (f1 f2 : list string)
    (d1 d2 : gmap string (list string)) :
  read_dictionary f1 = Ok d1 →
  read_dictionary f2 = Ok d2 →
  ∃ d, read_dictionary (f1 ++ f2) = Ok d
       ∧ ∀ k, default [] (d !! k) = default [] (d1 !! k) ++ default [] (d2 !! k).
Proof.
  intros H1 H2.
  pose proof (read_from_Ok f1 ∅ d1 H1) as Hf1.
  pose proof (read_from_Ok f2 ∅ d2 H2) as Hf2.
  destruct (read_from_lookup f1 ∅ Hf1) as (d1' & Hd1 & Hv1 & _).
  destruct (read_from_lookup f2 ∅ Hf2) as (d2' & Hd2 & Hv2 & _).
  destruct (read_from_lookup (f1 ++ f2) ∅) as (d & Hd & Hv & _).
  { by apply Forall_app. }
  unfold read_dictionary in *.
  rewrite Hd1 in H1. injection H1 as ->.
  rewrite Hd2 in H2. injection H2 as ->.
  exists d. split; [done|]. intros k.
  rewrite Hv, Hv1, Hv2, values_of_app, lookup_empty. done.
Qed.

Lemma read_dictionary_app_witness :
  ∃ d, read_dictionary (["see SEE"] ++ ["see EAT"; "do ACT"]) = Ok d
       ∧ default [] (d !! "see") = ["SEE"; "EAT"].
Proof.
  destruct (read_dictionary_app ["see SEE"] ["see EAT"; "do ACT"]
              {["see" := ["SEE"]]}
              (<["do" := ["ACT"]]> {["see" := ["EAT"]]}))
    as (d & Hd & Hk).
  - reflexivity.
  - reflexivity.
  - exists d. split; [done|]. by rewrite Hk.
Defined.

(** *** Words *)

Lemma str_app_assoc (a b c : string) : (a +:+ b) +:+ c = a +:+ (b +:+ c).
Proof.
  induction a as [|x a IH]; [done|].
  change (String x ((a +:+ b) +:+ c) = String x (a +:+ (b +:+ c))).
  by rewrite IH.
Qed.

Lemma str_app_nil_r (a : string) : a +:+ EmptyString = a.
Proof.
  induction a as [|x a IH]; [done|].
  change (String x (a +:+ EmptyString) = String x a). by rewrite IH.
Qed.

Lemma chars_app (a b : string) :
  String.list_ascii_of_string (a +:+ b)
  = String.list_ascii_of_string a ++ String.list_ascii_of_string b.
Proof.
  induction a as [|x a IH]; [done|].
  change (x :: String.list_ascii_of_string (a +:+ b)
          = x :: (String.list_ascii_of_string a ++ String.list_ascii_of_string b)).
  by rewrite IH.
Qed.

Lemma split_from_word (w : string) : ∀ cur rest,
  Forall (λ c, is_space c = false) (String.list_ascii_of_string w) →
  split_from cur (w +:+ rest) = split_from (cur +:+ w) rest.
Proof.
  induction w as [|c w IH]; intros cur rest Hw.
  - by rewrite str_app_nil_r.
  - cbn [String.list_ascii_of_string] in Hw.
    inversion Hw as [|? ? Hc Hrest]; subst.
    change (String c w +:+ rest) with (String c (w +:+ rest)).
    cbn [split_from]. rewrite Hc, IH by done.
    by rewrite str_app_assoc.
Qed.

Lemma split_from_space cur c rest :
  is_space c = true → cur ≠ EmptyString →
  split_from cur (String c rest) = cur :: split_from EmptyString rest.
Proof. intros Hc Hcur. cbn [split_from]. rewrite Hc. by destruct cur. Qed.

Lemma split_from_words ws : ∀ c rest,
  Forall word ws → ws ≠ [] → is_space c = true →
  split_from EmptyString (PyStr.join " " ws +:+ String c rest)
  = ws ++ split_from EmptyString rest.
Proof.
  induction ws as [|w ws IH]; intros c rest Hws Hne Hc; [done|].
  inversion Hws as [|? ? [Hw_ne Hw] Hrest]; subst.
  destruct ws as [|w2 ws].
  - cbn [PyStr.join]. rewrite split_from_word by done.
    by rewrite split_from_space.
  - change (PyStr.join " " (w :: w2 :: ws))
      with (w +:+ " " +:+ PyStr.join " " (w2 :: ws)).
    rewrite !str_app_assoc, split_from_word by done.
    change (" " +:+ ?x) with (String " " x).
    rewrite split_from_space by done.
    cbn [app]. f_equal. by apply IH.
Qed.

(** X9. A line written as a lemma and its candidates, separated by single
    spaces and ended by a newline, is read back as written: [split] returns
    the words, and [add_line] appends the candidates to the entry of the
    lemma. *)
Theorem add_line_join (d : gmap string (list string)) (k : string)
    (v : list string) :
  Forall word (k :: v) →
  let line := PyStr.join " " (k :: v) +:+ String "010" EmptyString in
  split line = k :: v
  ∧ add_line d line = Ok (<[k := default [] (d !! k) ++ v]> d).
Proof.
  intros Hws line.
  assert (Hsplit : split line = k :: v).
  { unfold split, line. rewrite split_from_words; [|done|done|done].
    by rewrite app_nil_r. }
  split; [done|]. unfold add_line. by rewrite Hsplit.
Qed.

Lemma add_line_join_witness :
  split (PyStr.join " " ["see"; "SEE"; "EAT"] +:+ String "010" EmptyString)
  = ["see"; "SEE"; "EAT"].
Proof.
  refine (proj1 (add_line_join ∅ "see" ["SEE"; "EAT"] _)).
  repeat constructor; discriminate.
Defined.

Lemma split_from_word_inv (s : string) : ∀ cur,
  (cur = EmptyString ∨ word cur) → Forall word (split_from cur s).
Proof.
  induction s as [|c s IH]; intros cur Hcur.
  - destruct cur as [|x cur]; cbn [split_from]; [constructor|].
    destruct Hcur as [?|Hw]; [discriminate|].
    constructor; [done | constructor].
  - cbn [split_from]. destruct (is_space c) eqn:Hc.
    + destruct cur as [|x cur]; [apply IH; by left|].
      destruct Hcur as [?|Hw]; [discriminate|].
      constructor; [done | apply IH; by left].
    + apply IH. right. split.
      * by destruct cur.
      * rewrite chars_app. apply Forall_app. split.
        -- destruct Hcur as [->|[_ Hw]]; [constructor | done].
        -- by repeat constructor.
Qed.

Lemma read_from_words file : ∀ d d',
  (∀ k v, d !! k = Some v → word k ∧ Forall word v) →
  for_each add_line file d = Ok d' →
  ∀ k v, d' !! k = Some v → word k ∧ Forall word v.
Proof.
  induction file as [|l file IH]; intros d d' Hinv Hread.
  - by injection Hread as <-.
  - cbn [for_each] in Hread.
    destruct (add_line d l) as [d0|e] eqn:Hadd; [|discriminate].
    apply (IH d0 d'); [|done].
    apply add_line_Ok in Hadd as (k0 & v0 & Hsplit & ->).
    pose proof (split_from_word_inv l EmptyString (or_introl eq_refl)) as Hws.
    fold (split l) in Hws. rewrite Hsplit in Hws.
    inversion Hws as [|? ? Hk0 Hv0]; subst.
    intros k v Hkv.
    destruct (decide (k0 = k)) as [->|Hne].
    + rewrite lookup_insert_eq in Hkv. injection Hkv as <-.
      split; [done|]. apply Forall_app. split; [|done].
      destruct (d !! k) as [v'|] eqn:Hdk; [|constructor].
      by destruct (Hinv k v' Hdk).
    + rewrite lookup_insert_ne in Hkv by done. by apply Hinv.
Qed.

(** X10. Every lemma and every candidate of a Lexicon read by
    [read_dictionary] is a word: it is not empty and holds no whitespace. *)
Theorem read_dictionary_words (file : list string)
    (d : gmap string (list string)) (k : string) (v : list string) :
  read_dictionary file = Ok d →
  d !! k = Some v →
  word k ∧ Forall word v.
Proof.
  intros Hread. apply (read_from_words file ∅ d); [|done].
  intros k' v' Hk'. by rewrite lookup_empty in Hk'.
Qed.

Lemma read_dictionary_words_witness :
  word "see" ∧ Forall word ["SEE"; "EAT"].
Proof.
  apply (read_dictionary_words ["  see SEE"; "see   EAT "]
           {["see" := ["SEE"; "EAT"]]} "see" ["SEE"; "EAT"]).
  - reflexivity.
  - reflexivity.
Defined.

End LexiconFacts.

(** ** More on the frame disambiguator *)

Module DecodeFramesExtra.
Import Vocabulary Model.

Lemma get_token_index_NoDup (v : Vocabulary.t) (n : nat) (c : string) :
  NoDup v → v !! n = Some c → get_token_index v c = Ok n.
Proof.
  intros Hnd Hn.
  destruct (ModelFacts.get_token_index_total v c) as [m Hm].
  { unfold label_set. rewrite elem_of_list_to_set.
    by eapply list_elem_of_lookup_2. }
  pose proof (ModelFacts.get_token_index_Ok v c m Hm) as Hvm.
  by rewrite (NoDup_lookup v n m c Hnd Hn Hvm).
Qed.

Lemma decode_frames_Ok_length self od restrict od' :
  decode_frames self od restrict = Ok od' →
  ∃ ftags,
    od' = set_frame_tags ftags od
    ∧ length ftags
      = if restrict
        then length (lemma od) `min` length (frame_probabilities od)
        else length (frame_probabilities od).
Proof.
  unfold decode_frames. destruct restrict; simpl.
  - destruct (traverse (candidate_ids (vocab self)) _) as [idss|] eqn:H1;
      [|discriminate]. simpl.
    destruct (traverse frame_prediction _) as [preds|] eqn:H2;
      [|discriminate]. simpl.
    destruct (traverse (get_token_from_index (vocab self)) preds)
      as [ftags|] eqn:H3; [|discriminate]. simpl.
    intros [= <-]. exists ftags. split; [done|].
    apply traverse_length in H1, H2, H3.
    rewrite H3, H2, length_zip_with, H1, length_fmap. done.
  - destruct (traverse argmax _) as [preds|] eqn:H2; [|discriminate]. simpl.
    destruct (traverse (get_token_from_index (vocab self)) preds)
      as [ftags|] eqn:H3; [|discriminate]. simpl.
    intros [= <-]. exists ftags. split; [done|].
    apply traverse_length in H2, H3. congruence.
Qed.

(** X11. [decode_frames] returns one frame tag per row of the frame
    distribution when [restrict] is off, and one per pair of a lemma and a
    row when it is on: rows beyond the list of lemmas get no tag, and no
    error is raised for them. *)
Theorem decode_frames_lengths (self : Self) (output_dict : OutputDict) :
  vocab self ≠ [] →
  Forall (λ row, length row = length (vocab self))
         (frame_probabilities output_dict) →
  ∃ restricted unrestricted,
    decode_frames self output_dict true
    = Ok (set_frame_tags restricted output_dict)
    ∧ decode_frames self output_dict false
      = Ok (set_frame_tags unrestricted output_dict)
    ∧ length restricted
      = length (lemma output_dict)
          `min` length (frame_probabilities output_dict)
    ∧ length unrestricted = length (frame_probabilities output_dict).
Proof.
  intros Hv Hshape.
  destruct (ModelFacts.decode_frames_restricted_Ok self output_dict Hv Hshape)
    as (ftr & Hr & _).
  destruct (ModelFacts.decode_frames_unrestricted_Ok self output_dict Hv Hshape)
    as (ftu & Hu & _).
  exists ftr, ftu. split; [done|]. split; [done|].
  destruct (decode_frames_Ok_length _ _ _ _ Hr) as (ft1 & Heq1 & Hlen1).
  destruct (decode_frames_Ok_length _ _ _ _ Hu) as (ft2 & Heq2 & Hlen2).
  apply (f_equal frame_tags) in Heq1, Heq2. simpl in Heq1, Heq2.
  injection Heq1 as ->. injection Heq2 as ->. done.
Qed.

Lemma decode_frames_lengths_witness :
  ∃ restricted unrestricted,
    decode_frames Samples.self
      (Samples.frames_only [Samples.row; Samples.row; Samples.row] ["see"]) true
    = Ok (set_frame_tags restricted
            (Samples.frames_only [Samples.row; Samples.row; Samples.row] ["see"]))
    ∧ decode_frames Samples.self
        (Samples.frames_only [Samples.row; Samples.row; Samples.row] ["see"]) false
      = Ok (set_frame_tags unrestricted
              (Samples.frames_only [Samples.row; Samples.row; Samples.row] ["see"]))
    ∧ length restricted = 1
    ∧ length unrestricted = 3.
Proof.
  apply (decode_frames_lengths Samples.self
           (Samples.frames_only [Samples.row; Samples.row; Samples.row] ["see"])).
  - discriminate.
  - repeat constructor.
Defined.

(** X12. No cross-example interaction: in two batches with rows of the size
    of the vocabulary, an instance with the same lemma and the same frame
    distribution at the same index gets the same restricted frame tag,
    whatever the other instances are. *)
Theorem decode_frames_independent (self : Self) (od1 od2 : OutputDict)
    (i : nat) (l : string) (fp : list Q) :
  vocab self ≠ [] →
  Forall (λ row, length row = length (vocab self)) (frame_probabilities od1) →
  Forall (λ row, length row = length (vocab self)) (frame_probabilities od2) →
  lemma od1 !! i = Some l → frame_probabilities od1 !! i = Some fp →
  lemma od2 !! i = Some l → frame_probabilities od2 !! i = Some fp →
  ∃ ftags1 ftags2 lab,
    decode_frames self od1 true = Ok (set_frame_tags ftags1 od1)
    ∧ decode_frames self od2 true = Ok (set_frame_tags ftags2 od2)
    ∧ ftags1 !! i = Some lab
    ∧ ftags2 !! i = Some lab.
Proof.
  intros Hv Hs1 Hs2 Hl1 Hf1 Hl2 Hf2.
  destruct (ModelFacts.decode_frames_restricted_Ok self od1 Hv Hs1)
    as (ft1 & Hr1 & Hrows1).
  destruct (ModelFacts.decode_frames_restricted_Ok self od2 Hv Hs2)
    as (ft2 & Hr2 & Hrows2).
  destruct (Hrows1 i l fp Hl1 Hf1) as (ids1 & n1 & lab1 & Hids1 & Hn1 & Hlab1 & Hi1).
  destruct (Hrows2 i l fp Hl2 Hf2) as (ids2 & n2 & lab2 & Hids2 & Hn2 & Hlab2 & Hi2).
  rewrite Hids1 in Hids2. injection Hids2 as <-.
  rewrite Hn1 in Hn2. injection Hn2 as <-.
  rewrite Hlab1 in Hlab2. injection Hlab2 as <-.
  exists ft1, ft2, lab1. done.
Qed.

Lemma decode_frames_independent_witness :
  ∃ ftags1 ftags2 lab,
    decode_frames Samples.self Samples.three_lemmas true
    = Ok (set_frame_tags ftags1 Samples.three_lemmas)
    ∧ decode_frames Samples.self
        (Samples.frames_only [Samples.row] ["see"]) true
      = Ok (set_frame_tags ftags2 (Samples.frames_only [Samples.row] ["see"]))
    ∧ ftags1 !! 0 = Some lab
    ∧ ftags2 !! 0 = Some lab.
Proof.
  apply (decode_frames_independent Samples.self Samples.three_lemmas
           (Samples.frames_only [Samples.row] ["see"]) 0 "see" Samples.row).
  - discriminate.
  - repeat constructor.
  - repeat constructor.
  - reflexivity.
  - reflexivity.
  - reflexivity.
  - reflexivity.
Defined.

(** X13. The restriction changes nothing when the best label is licensed:
    with a duplicate-free vocabulary, if one label has a strictly higher
    probability than every other and is among the filtered candidates of
    the lemma, [restrict] on and off both return that label. *)
Theorem decode_frames_licensed_best (self : Self) (output_dict : OutputDict)
    (i n : nat) (l lab : string) (fp : list Q) (p : Q) :
  NoDup (vocab self) →
  Forall (λ row, length row = length (vocab self))
         (frame_probabilities output_dict) →
  lemma output_dict !! i = Some l →
  frame_probabilities output_dict !! i = Some fp →
  vocab self !! n = Some lab →
  fp !! n = Some p →
  (∀ j q, j ≠ n → fp !! j = Some q → (q < p)%Q) →
  lab ∈ filtered_candidates self l →
  ∃ restricted unrestricted,
    decode_frames self output_dict true
    = Ok (set_frame_tags restricted output_dict)
    ∧ decode_frames self output_dict false
      = Ok (set_frame_tags unrestricted output_dict)
    ∧ restricted !! i = Some lab
    ∧ unrestricted !! i = Some lab.
Proof.
  intros Hnd Hshape Hl Hfp Hn Hp Hbest Hlic.
  assert (Hv : vocab self ≠ []).
  { intros Hnil. rewrite Hnil in Hn. discriminate. }
  destruct (ModelFacts.decode_frames_restricted_Ok self output_dict Hv Hshape)
    as (ftr & Hr & Hrows_r).
  destruct (ModelFacts.decode_frames_unrestricted_Ok self output_dict Hv Hshape)
    as (ftu & Hu & Hrows_u).
  exists ftr, ftu. split; [done|]. split; [done|].
  assert (Huniq : ∀ m x, fp !! m = Some x →
                         (∀ j y, fp !! j = Some y → (y <= x)%Q) → m = n).
  { intros m x Hm Hmax. destruct (decide (m = n)) as [|Hne]; [done|].
    exfalso. pose proof (Hbest m x Hne Hm) as Hlt.
    pose proof (Hmax n p Hp) as Hle.
    by apply (Qlt_not_le _ _ Hlt). }
  split.
  - destruct (Hrows_r i l fp Hl Hfp) as (ids & m & lab' & Hids & Hm & Hlab' & Hi).
    apply ModelFacts.candidate_ids_Ok in Hids.
    fold (filtered_candidates self l) in Hids.
    destruct (ModelFacts.frame_prediction_restricted (vocab self) fp
                (filtered_candidates self l) ids Hids)
      as (k & m' & lab'' & p' & Hm' & Hk & Hvm' & Hprob & Hmax & _).
    { by eapply ModelFacts.row_length. }
    { intros Hnil. rewrite Hnil in Hlic. by apply elem_of_nil in Hlic. }
    rewrite Hm in Hm'. injection Hm' as <-.
    rewrite Hlab' in Hvm'. injection Hvm' as <-.
    apply list_elem_of_lookup_1 in Hlic as [j Hj].
    assert (Hplab : probability (vocab self) fp lab = Some p).
    { unfold probability. by rewrite (get_token_index_NoDup _ n lab Hnd Hn). }
    pose proof (Hmax j lab p Hj Hplab) as Hle.
    unfold probability in Hprob.
    rewrite (get_token_index_NoDup _ m lab' Hnd Hlab') in Hprob.
    destruct (decide (m = n)) as [->|Hne].
    + rewrite Hn in Hlab'. by injection Hlab' as <-.
    + exfalso. pose proof (Hbest m p' Hne Hprob) as Hlt.
      by apply (Qlt_not_le _ _ Hlt).
  - destruct (Hrows_u i fp Hfp) as (m & lab' & Hm & Hlab' & Hi).
    apply argmax_spec in Hm as (x & Hx & Hmax & _).
    rewrite (Huniq m x Hx Hmax) in Hlab'.
    rewrite Hn in Hlab'. by injection Hlab' as <-.
Qed.

Lemma decode_frames_licensed_best_witness :
  ∃ restricted unrestricted,
    decode_frames Samples.self
      (Samples.frames_only [MoreSamples.best_eat] ["see"]) true
    = Ok (set_frame_tags restricted
            (Samples.frames_only [MoreSamples.best_eat] ["see"]))
    ∧ decode_frames Samples.self
        (Samples.frames_only [MoreSamples.best_eat] ["see"]) false
      = Ok (set_frame_tags unrestricted
              (Samples.frames_only [MoreSamples.best_eat] ["see"]))
    ∧ restricted !! 0 = Some "EAT"
    ∧ unrestricted !! 0 = Some "EAT".
Proof.
  apply (decode_frames_licensed_best Samples.self
           (Samples.frames_only [MoreSamples.best_eat] ["see"])
           0 1 "see" "EAT" MoreSamples.best_eat (6#10)).
  - repeat constructor; rewrite ?elem_of_cons, ?elem_of_nil;
      intuition discriminate.
  - repeat constructor.
  - reflexivity.
  - reflexivity.
  - reflexivity.
  - reflexivity.
  - intros [|[|[|j]]] q Hj Hq; try done; injection Hq as <-; reflexivity.
  - apply list_elem_of_In. vm_compute. tauto.
Defined.

End DecodeFramesExtra.

(** ** More on [forward] *)

Module ForwardExtra.
Import Vocabulary Model Marked.

Lemma select_row_length {A} (row : list A) : ∀ indicator,
  length row = length indicator →
  length (select_row row indicator) = marked_positions indicator.
Proof.
  unfold select_row, marked_positions.
  induction row as [|x row IH]; intros [|z ind] Hlen; simpl in *;
    try discriminate; [done|].
  rewrite !filter_cons. simpl.
  destruct (decide (z = 1%Z)); simpl; rewrite <- IH by congruence; done.
Qed.

Lemma same_shape_rows {A B} (x : list (list A)) : ∀ (y : list (list B)),
  same_shape x y = true → Forall2 (λ r i, length r = length i) x y.
Proof.
  unfold same_shape.
  induction x as [|r x IH]; intros [|i y] Hs;
    apply bool_decide_eq_true in Hs; simpl in Hs; try discriminate.
  - constructor.
  - injection Hs as Hr Hrest. constructor; [done|].
    apply IH. by apply bool_decide_eq_true.
Qed.

Lemma masked_select_length {A} (x : list (list A)) indicator sel :
  masked_select x indicator = Ok sel →
  length sel = sum_list (marked_positions <$> indicator).
Proof.
  unfold masked_select. destruct (same_shape x indicator) eqn:Hs; [|discriminate].
  intros [= <-]. apply same_shape_rows in Hs.
  induction Hs as [|r i x y Hri _ IH]; [done|].
  cbn [zip_with concat fmap list_fmap]. rewrite length_app, IH.
  by rewrite select_row_length.
Qed.

Section Forward.
Context {Emb : Type}.
Variable tag_projection_layer : Emb → list Q.
Variable frame_projection_layer : Emb → list Q.
Variable softmax : list Q → list Q.
Variable sequence_cross_entropy_with_logits :
  list (list (list Q)) → list (list nat) → list (list Z) → Q.
Variable frame_criterion : list (list Q) → list nat → Q.
Variable convert_bio_tags_to_conll_format : list string → list string.

Local Abbreviation forward' :=
  (forward tag_projection_layer frame_projection_layer softmax
     sequence_cross_entropy_with_logits frame_criterion
     convert_bio_tags_to_conll_format).

Local Abbreviation forward_then_decode' :=
  (forward_then_decode tag_projection_layer frame_projection_layer softmax
     sequence_cross_entropy_with_logits frame_criterion
     convert_bio_tags_to_conll_format).

(** The output of [forward] without gold tags. *)
Lemma forward_inference self embs mask inds metadata :
  same_shape embs inds = true → metadata ≠ [] →
  ∃ sel,
    masked_select embs inds = Ok sel
    ∧ forward' self embs mask inds metadata None None
      = Ok ({| logits := fmap (M:=list) tag_projection_layer <$> embs;
               frame_logits := frame_projection_layer <$> sel;
               class_probabilities :=
                 fmap (M:=list) softmax
                   <$> (fmap (M:=list) tag_projection_layer <$> embs);
               frame_probabilities :=
                 softmax <$> (frame_projection_layer <$> sel);
               Model.mask := mask;
               words := md_words <$> metadata;
               lemma := concat (md_lemmas <$> metadata);
               verb := md_verb <$> metadata;
               wordpiece_offsets := md_offsets <$> metadata;
               tags := None; frame_tags := None;
               frame_loss := None; role_loss := None; loss := None |}, []).
Proof.
  intros Hs Hmeta. unfold forward, masked_select. rewrite Hs. simpl.
  eexists. split; [done|]. by destruct metadata.
Qed.

(** X14. Without gold tags [forward] returns, for a batch of the right
    shape, a frame distribution with one row per marked position: as many
    rows as the frame indicator holds ones, which need not be the number of
    instances. No metric is called and no loss or decoded tag is set. *)
Theorem forward_rows_are_marked_positions (self : Self)
    (embedded_text_input : list (list Emb)) (mask : list (list Z))
    (frame_indicator : list (list Z)) (metadata : list Metadata) :
  same_shape embedded_text_input frame_indicator = true →
  metadata ≠ [] →
  ∃ output_dict,
    forward' self embedded_text_input mask frame_indicator metadata None None
    = Ok (output_dict, [])
    ∧ length (frame_probabilities output_dict)
      = sum_list (marked_positions <$> frame_indicator)
    ∧ length (frame_logits output_dict)
      = sum_list (marked_positions <$> frame_indicator)
    ∧ length (class_probabilities output_dict) = length embedded_text_input
    ∧ tags output_dict = None ∧ frame_tags output_dict = None
    ∧ loss output_dict = None.
Proof.
  intros Hs Hmeta.
  destruct (forward_inference self embedded_text_input mask frame_indicator
              metadata Hs Hmeta) as (sel & Hsel & ->).
  apply masked_select_length in Hsel.
  eexists. split; [done|]. simpl.
  rewrite !length_fmap. done.
Qed.

Lemma concat_singletons {A} (l : list A) : concat ((λ x, [x]) <$> l) = l.
Proof.
  induction l as [|x l IH]; [done|].
  rewrite fmap_cons. cbn [concat app]. by rewrite IH.
Qed.

(** X15. Alignment holds when every instance has exactly one marked
    position and one lemma: [decode(forward(batch))] then returns one frame
    tag per instance, and the tag at index [i] is resolved from the marked
    hidden vector and the lemma of instance [i]. The result holds no key
    [tags]. *)
Theorem forward_then_decode_aligned (self : Self)
    (embedded_text_input : list (list Emb)) (mask : list (list Z))
    (frame_indicator : list (list Z)) (metadata : list Metadata)
    (es : list Emb) (ls : list string) :
  same_shape embedded_text_input frame_indicator = true →
  zip_with select_row embedded_text_input frame_indicator = (λ e, [e]) <$> es →
  md_lemmas <$> metadata = (λ l, [l]) <$> ls →
  metadata ≠ [] →
  Forall (λ e, length (softmax (frame_projection_layer e))
               = length (vocab self)) es →
  vocab self ≠ [] →
  ∃ output_dict ftags,
    forward_then_decode' self embedded_text_input mask frame_indicator metadata
    = Ok output_dict
    ∧ frame_tags output_dict = Some ftags
    ∧ tags output_dict = None
    ∧ length ftags = length es `min` length ls
    ∧ ∀ i e l, es !! i = Some e → ls !! i = Some l →
        ∃ ids n lab,
          candidate_ids (vocab self) (default [] (lemma_frame_dict self !! l))
          = Ok ids
          ∧ frame_prediction (ids, softmax (frame_projection_layer e)) = Ok n
          ∧ vocab self !! n = Some lab
          ∧ ftags !! i = Some lab.
Proof.
  intros Hs Hone Hlem Hmeta Hwidth Hv.
  destruct (forward_inference self embedded_text_input mask frame_indicator
              metadata Hs Hmeta) as (sel & Hsel & Hfwd).
  assert (Hsel_es : sel = es).
  { unfold masked_select in Hsel. rewrite Hs in Hsel. injection Hsel as <-.
    by rewrite Hone, concat_singletons. }
  subst sel.
  unfold forward_then_decode. rewrite Hfwd. cbn [mbind result_bind fst].
  unfold decode, model_decode. cbn [mbind result_bind].
  match goal with
  | |- ∃ _ _, decode_frames self ?d true = _ ∧ _ => set (od := d)
  end.
  assert (Hshape : Forall (λ row, length row = length (vocab self))
                          (frame_probabilities od)).
  { subst od. cbn [frame_probabilities].
    by apply Forall_fmap, Forall_fmap. }
  destruct (ModelFacts.decode_frames_restricted_Ok self od Hv Hshape)
    as (ftags & Hdec & Hrows).
  exists (set_frame_tags ftags od), ftags.
  split; [done|]. split; [done|]. split; [done|]. split.
  - destruct (DecodeFramesExtra.decode_frames_Ok_length _ _ _ _ Hdec)
      as (ft & Heq & Hlen).
    apply (f_equal frame_tags) in Heq. simpl in Heq. injection Heq as <-.
    rewrite Hlen. subst od. cbn [lemma frame_probabilities].
    rewrite Hlem, concat_singletons, !length_fmap. lia.
  - intros i e l He Hl.
    destruct (Hrows i l (softmax (frame_projection_layer e)))
      as (ids & n & lab & H1 & H2 & H3 & H4).
    + subst od. cbn [lemma]. by rewrite Hlem, concat_singletons.
    + subst od. cbn [frame_probabilities].
      by rewrite !list_lookup_fmap, He.
    + exists ids, n, lab. done.
Qed.

(** X16. [forward] with gold tags and gold frame tags, on a batch of the
    right shape. In evaluation mode with a span scorer, span metrics not
    ignored, [forward] returns no result: [decode] adds no key [tags], so
    once the frames are decoded [pop("tags")] raises [KeyError], and
    neither metric is called. Otherwise [forward] returns: the frame metric
    is its only metric call, the loss is the mean of the role loss and the
    frame loss, and nothing is decoded. *)
Theorem forward_gold_path (self : Self)
    (embedded_text_input : list (list Emb)) (mask : list (list Z))
    (frame_indicator : list (list Z)) (metadata : list Metadata)
    (gold : list (list nat)) (frame_tags : option (list (list nat)))
    (sel : list Emb) (filtered : list nat) :
  masked_select embedded_text_input frame_indicator = Ok sel →
  metadata ≠ [] →
  filter_frame_tags frame_tags frame_indicator = Ok filtered →
  let run :=
    forward' self embedded_text_input mask frame_indicator metadata
      (Some gold) frame_tags in
  let logits := fmap (M:=list) tag_projection_layer <$> embedded_text_input in
  let frame_logits := frame_projection_layer <$> sel in
  let rl := sequence_cross_entropy_with_logits logits gold mask in
  let fl := frame_criterion frame_logits filtered in
  if negb (ignore_span_metric self) && has_span_metric self
     && negb (training self)
  then (∀ r, run ≠ Ok r)
       ∧ (vocab self ≠ [] →
          Forall (λ row, length (softmax row) = length (vocab self))
                 frame_logits →
          run = Raise KeyError)
  else ∃ output_dict,
         run = Ok (output_dict, [FrameMetricCall frame_logits filtered])
         ∧ Model.frame_logits output_dict = frame_logits
         ∧ role_loss output_dict = Some rl
         ∧ frame_loss output_dict = Some fl
         ∧ loss output_dict = Some ((rl + fl) / 2)%Q
         ∧ tags output_dict = None
         ∧ Model.frame_tags output_dict = None.
Proof.
  intros Hsel Hmeta Hfilter run logits fl_logits rl fl.
  subst run. unfold forward. rewrite Hsel. cbn [mbind result_bind].
  destruct metadata as [|m ms]; [done|].
  rewrite Hfilter. cbn [mbind result_bind]. unfold update_span_metric.
  destruct (negb (ignore_span_metric self) && has_span_metric self
            && negb (training self)).
  - unfold decode, model_decode. cbn [mbind result_bind].
    match goal with
    | |- context [decode_frames self ?d false] => set (od := d)
    end.
    assert (Hpop : ∀ od1, decode_frames self od false = Ok od1 →
                          pop_tags od1 = Raise KeyError).
    { intros od1 Hdec.
      apply DecodeFramesExtra.decode_frames_Ok_length in Hdec as (ft & -> & _).
      reflexivity. }
    split.
    + intros r. destruct (decode_frames self od false) as [od1|] eqn:Hdec;
        cbn [mbind result_bind]; [|discriminate].
      rewrite (Hpop od1 eq_refl). discriminate.
    + intros Hv Hwidth.
      destruct (ModelFacts.decode_frames_unrestricted_Ok self od Hv)
        as (ftags & Hdec & _).
      { subst od. cbn [frame_probabilities]. by apply Forall_fmap. }
      rewrite Hdec. cbn [mbind result_bind].
      by rewrite (Hpop _ Hdec).
  - cbn [mbind result_bind fst snd app]. eexists. split; [reflexivity|].
    done.
Qed.

End Forward.

Lemma forward_rows_are_marked_positions_witness :
  ∃ output_dict,
    forward id id id (λ _ _ _, 0%Q) (λ _ _, 0%Q) id Samples.self
      [Samples.inst_a_emb; Samples.inst_b_emb; Samples.inst_c_emb]
      [[1; 1]; [1; 1]; [1; 1]]%Z
      [Samples.inst_a_ind; Samples.inst_b_ind; Samples.inst_c_ind]
      [Samples.inst_a_meta; Samples.inst_b_meta; Samples.inst_c_meta]
      None None
    = Ok (output_dict, [])
    ∧ length (frame_probabilities output_dict) = 2.
Proof.
  destruct (forward_rows_are_marked_positions
              id id id (λ _ _ _, 0%Q) (λ _ _, 0%Q) id Samples.self
              [Samples.inst_a_emb; Samples.inst_b_emb; Samples.inst_c_emb]
              [[1; 1]; [1; 1]; [1; 1]]%Z
              [Samples.inst_a_ind; Samples.inst_b_ind; Samples.inst_c_ind]
              [Samples.inst_a_meta; Samples.inst_b_meta; Samples.inst_c_meta])
    as (od & Hod & Hlen & _).
  - reflexivity.
  - discriminate.
  - exists od. split; [exact Hod | exact Hlen].
Defined.

Lemma forward_then_decode_aligned_witness :
  ∃ output_dict ftags,
    Samples.run_batch [Samples.inst_a_emb; Samples.inst_c_emb]
      [Samples.inst_a_ind; Samples.inst_c_ind]
      [Samples.inst_a_meta; Samples.inst_c_meta] = Ok output_dict
    ∧ frame_tags output_dict = Some ftags
    ∧ length ftags = 2.
Proof.
  destruct (forward_then_decode_aligned
              id id id (λ _ _ _, 0%Q) (λ _ _, 0%Q) id Samples.self
              [Samples.inst_a_emb; Samples.inst_c_emb]
              [[1; 1]; [1; 1]]%Z
              [Samples.inst_a_ind; Samples.inst_c_ind]
              [Samples.inst_a_meta; Samples.inst_c_meta]
              [MoreSamples.best_eat; Samples.row] ["see"; "walk"])
    as (od & ftags & Hrun & Hft & _ & Hlen & _).
  - reflexivity.
  - reflexivity.
  - reflexivity.
  - discriminate.
  - repeat constructor.
  - discriminate.
  - exists od, ftags. split; [exact Hrun|]. split; [exact Hft | exact Hlen].
Defined.

Lemma forward_gold_path_witness :
  MoreSamples.gold_run Samples.self = Raise KeyError
  ∧ ∃ output_dict,
      MoreSamples.gold_run MoreSamples.training_self
      = Ok (output_dict, [FrameMetricCall [MoreSamples.best_eat] [1]])
      ∧ loss output_dict = Some ((0 + 0) / 2)%Q
      ∧ frame_tags output_dict = None.
Proof.
  split.
  - refine (proj2 (forward_gold_path id id id (λ _ _ _, 0%Q) (λ _ _, 0%Q) id
                     Samples.self [Samples.inst_a_emb] [[1; 1]]%Z
                     [Samples.inst_a_ind] [Samples.inst_a_meta] [[0; 1]]
                     (Some [[0; 1]]) [MoreSamples.best_eat] [1] _ _ _) _ _).
    + reflexivity.
    + discriminate.
    + reflexivity.
    + discriminate.
    + repeat constructor.
  - destruct (forward_gold_path id id id (λ _ _ _, 0%Q) (λ _ _, 0%Q) id
                MoreSamples.training_self [Samples.inst_a_emb] [[1; 1]]%Z
                [Samples.inst_a_ind] [Samples.inst_a_meta] [[0; 1]]
                (Some [[0; 1]]) [MoreSamples.best_eat] [1])
      as (od & Hrun & _ & _ & _ & Hloss & _ & Hft).
    + reflexivity.
    + discriminate.
    + reflexivity.
    + exists od. split; [exact Hrun|]. split; [exact Hloss | exact Hft].
Defined.

End ForwardExtra.

(** ** Reported metrics *)

Module MetricsFacts.
Import Stdlib.Strings.Ascii.
Import Model Metrics.

Example get_metrics_sample :
  get_metrics Samples.self MoreSamples.span_items MoreSamples.frame_items
  = Ok (list_to_map
          [("precision_role", 3#4); ("recall_role", 2#3); ("f1_role", 12#17);
           ("precision_frame", 9#10); ("recall_frame", 9#10);
           ("fscore_frame", 9#10)]).
Proof. vm_compute. reflexivity. Qed.

(** A lookup in a dictionary built by a comprehension. *)
Lemma dict_of_lookup (key : string → string) (items : list (string * Q)) :
  ∀ (d : gmap string Q) k y,
  foldl (λ d xy, <[key xy.1 := xy.2]> d) d items !! k = Some y →
  d !! k = Some y ∨ ∃ x, (x, y) ∈ items ∧ key x = k.
Proof.
  induction items as [|[x0 y0] items IH]; intros d k y Hk; [by left|].
  cbn [foldl] in Hk. apply IH in Hk as [Hk | (x & Hx & Hkey)].
  - cbn [fst snd] in Hk. destruct (decide (key x0 = k)) as [Heq|Hne].
    + rewrite Heq, lookup_insert_eq in Hk. injection Hk as ->.
      right. exists x0. split; [by left | done].
    + rewrite lookup_insert_ne in Hk by done. by left.
  - right. exists x. split; [by right | done].
Qed.

Lemma dict_of_last (key : string → string) (items : list (string * Q)) :
  ∀ (d : gmap string Q) x y,
  (x, y) ∈ items →
  (∀ x' y', (x', y') ∈ items → key x' = key x → y' = y) →
  foldl (λ d xy, <[key xy.1 := xy.2]> d) d items !! key x = Some y.
Proof.
  induction items as [|[x0 y0] items IH] using rev_ind; intros d x y Hin Huniq.
  - by apply elem_of_nil in Hin.
  - rewrite foldl_app. cbn [foldl fst snd].
    destruct (decide (key x0 = key x)) as [Heq|Hne].
    + rewrite Heq, lookup_insert_eq. f_equal.
      apply (Huniq x0 y0); [|done]. apply elem_of_app. right. by left.
    + rewrite lookup_insert_ne by done. apply IH.
      * apply elem_of_app in Hin as [Hin|Hin]; [done|].
        apply list_elem_of_singleton in Hin. injection Hin as -> ->. done.
      * intros x' y' Hx'. apply Huniq. apply elem_of_app. by left.
Qed.

(** A role key is never a frame key. *)
Lemma role_key_not_frame_key a b : role_key a ≠ frame_key b.
Proof.
  unfold role_key, frame_key. intros Heq.
  apply (f_equal String.list_ascii_of_string) in Heq.
  rewrite !LexiconFacts.chars_app in Heq.
  apply (f_equal reverse) in Heq. rewrite !reverse_app in Heq.
  vm_compute reverse in Heq. discriminate.
Qed.

Lemma chars_inj (a b : string) :
  String.list_ascii_of_string a = String.list_ascii_of_string b → a = b.
Proof.
  intros Heq. apply (f_equal String.string_of_list_ascii) in Heq.
  by rewrite !String.string_of_list_ascii_of_string in Heq.
Qed.

Lemma str_app_inv_tail (a b s : string) : a +:+ s = b +:+ s → a = b.
Proof.
  intros Heq. apply chars_inj.
  apply (f_equal String.list_ascii_of_string) in Heq.
  rewrite !LexiconFacts.chars_app in Heq. by apply app_inv_tail in Heq.
Qed.

Lemma get_metrics_Ok (self : Self) (span_metric frame_metric : list (string * Q)) :
  ignore_span_metric self = false → has_span_metric self = true →
  get_metrics self span_metric frame_metric
  = Ok (dict_of frame_key frame_metric
        ∪ dict_of role_key
            (filter (λ xy, contains "overall" xy.1 = true) span_metric)).
Proof. unfold get_metrics. by intros -> ->. Qed.

(** X17. What is reported: every frame metric under its name followed by
    [_frame], and every span metric whose name holds [overall] under the
    part of its name before the first dash followed by [_role] (when no
    other such metric with a different value shares that part). *)
Theorem get_metrics_reported (self : Self)
    (span_metric frame_metric : list (string * Q)) :
  ignore_span_metric self = false → has_span_metric self = true →
  ∃ d, get_metrics self span_metric frame_metric = Ok d
       ∧ (∀ x y, (x, y) ∈ frame_metric →
                 (∀ y', (x, y') ∈ frame_metric → y' = y) →
                 d !! (x +:+ "_frame") = Some y)
       ∧ (∀ x y, (x, y) ∈ span_metric → contains "overall" x = true →
                 (∀ x' y', (x', y') ∈ span_metric →
                           contains "overall" x' = true →
                           split_first "-" x' = split_first "-" x → y' = y) →
                 d !! (split_first "-" x +:+ "_role") = Some y).
Proof.
  intros Hi Hs. eexists. split; [by apply get_metrics_Ok|]. split.
  - intros x y Hin Huniq. apply lookup_union_Some_l.
    apply (dict_of_last frame_key frame_metric ∅ x y Hin).
    intros x' y' Hin' Hkey. apply str_app_inv_tail in Hkey as ->. by apply Huniq.
  - intros x y Hin Hov Huniq.
    rewrite lookup_union_r.
    + apply (dict_of_last role_key _ ∅ x y).
      * apply list_elem_of_filter. by split.
      * intros x' y' [Hov' Hin']%list_elem_of_filter Hkey.
        apply str_app_inv_tail in Hkey. by apply (Huniq x' y').
    + destruct (dict_of frame_key frame_metric !! role_key x) as [y'|] eqn:Hk;
        [|done].
      apply dict_of_lookup in Hk as [Hk | (x' & _ & Hkey)].
      * by rewrite lookup_empty in Hk.
      * symmetry in Hkey. by apply role_key_not_frame_key in Hkey.
Qed.

Lemma get_metrics_reported_witness :
  ∃ d, get_metrics Samples.self MoreSamples.span_items MoreSamples.frame_items
       = Ok d
       ∧ d !! "fscore_frame" = Some (9#10)
       ∧ d !! "f1_role" = Some (12#17).
Proof.
  destruct (get_metrics_reported Samples.self MoreSamples.span_items
              MoreSamples.frame_items eq_refl eq_refl) as (d & Hd & Hf & Hr).
  exists d. split; [exact Hd|]. split.
  - apply (Hf "fscore" (9#10)).
    + apply list_elem_of_In. simpl. tauto.
    + intros y' Hin. apply list_elem_of_In in Hin. simpl in Hin.
      intuition congruence.
  - apply (Hr "f1-measure-overall" (12#17)).
    + apply list_elem_of_In. simpl. tauto.
    + reflexivity.
    + intros x' y' Hin Hov Hpre. apply list_elem_of_In in Hin. simpl in Hin.
      destruct Hin as [Heq|[Heq|[Heq|[Heq|[Heq|[Heq|Hin]]]]]];
        [inversion Heq; subst;
         first [ reflexivity
               | vm_compute in Hpre; discriminate
               | vm_compute in Hov; discriminate ] ..
        | destruct Hin].
Defined.

(** X18. Nothing else is reported: every entry of the result comes from a
    frame metric or from a span metric whose name holds [overall]; the
    per-class span metrics are left out. *)
Theorem get_metrics_only_overall (self : Self)
    (span_metric frame_metric : list (string * Q))
    (d : gmap string Q) (k : string) (y : Q) :
  get_metrics self span_metric frame_metric = Ok d →
  d !! k = Some y →
  (∃ x, (x, y) ∈ frame_metric ∧ k = x +:+ "_frame")
  ∨ (∃ x, (x, y) ∈ span_metric ∧ contains "overall" x = true
          ∧ k = split_first "-" x +:+ "_role").
Proof.
  unfold get_metrics.
  destruct (ignore_span_metric self).
  { intros [= <-] Hk. by rewrite lookup_empty in Hk. }
  destruct (has_span_metric self); [|discriminate]. simpl.
  intros [= <-] Hk. apply lookup_union_Some_raw in Hk as [Hk | [_ Hk]].
  - apply dict_of_lookup in Hk as [Hk | (x & Hx & Hkey)].
    + by rewrite lookup_empty in Hk.
    + left. by exists x.
  - apply dict_of_lookup in Hk as [Hk | (x & Hx & Hkey)].
    + by rewrite lookup_empty in Hk.
    + apply list_elem_of_filter in Hx as [Hov Hx]. right. by exists x.
Qed.

Lemma get_metrics_only_overall_witness :
  (∃ x, (x, 3#4) ∈ MoreSamples.frame_items ∧ "precision_role" = x +:+ "_frame")
  ∨ (∃ x, (x, 3#4) ∈ MoreSamples.span_items ∧ contains "overall" x = true
          ∧ "precision_role" = split_first "-" x +:+ "_role").
Proof.
  apply (get_metrics_only_overall Samples.self MoreSamples.span_items
           MoreSamples.frame_items
           (list_to_map
              [("precision_role", 3#4); ("recall_role", 2#3); ("f1_role", 12#17);
               ("precision_frame", 9#10); ("recall_frame", 9#10);
               ("fscore_frame", 9#10)])
           "precision_role" (3#4)).
  - vm_compute. reflexivity.
  - vm_compute. reflexivity.
Defined.

End MetricsFacts.

(** ** More on the predictor *)

Module PredictorExtra.
Import Predictor PredictorMore.
Local Open Scope nat_scope.

(** *** Instance splitting *)

Lemma zeros_replicate {A} (l : list A) :
  (λ _, 0%Z) <$> l = replicate (length l) 0%Z.
Proof. induction l as [|x l IH]; [done|]. simpl. by rewrite <- IH. Qed.

Lemma elem_of_zip_seq {A} (l : list A) (s i : nat) (x : A) :
  (i, x) ∈ zip (seq s (length l)) l ↔ s ≤ i ∧ l !! (i - s) = Some x.
Proof.
  rewrite list_elem_of_lookup. split.
  - intros [j Hj].
    apply lookup_zip_with_Some in Hj as (i' & x' & [= <- <-] & Hi & Hx).
    apply lookup_seq in Hi as [-> Hlt]. split; [lia|].
    by replace (s + j - s) with j by lia.
  - intros [Hle Hx]. exists (i - s). apply lookup_zip_with_Some.
    exists i, x. split; [done|]. split; [|done].
    apply lookup_seq. split; [lia|]. by eapply lookup_lt_Some.
Qed.

Lemma filter_zip_seq_increasing {A} (P : nat * A → Prop)
    `{∀ x, Decision (P x)} (l : list A) : ∀ s,
  increasing (fst <$> filter P (zip (seq s (length l)) l)).
Proof.
  induction l as [|x l IH]; intros s.
  { intros a b i j Ha. by destruct a. }
  cbn [length seq zip_with]. rewrite filter_cons.
  destruct (decide (P (s, x))); [|apply IH].
  rewrite fmap_cons. intros [|a] [|b] i j Ha Hb Hab; try lia.
  - injection Ha as <-. simpl in Hb.
    apply list_elem_of_lookup_2 in Hb.
    apply list_elem_of_fmap in Hb as ([j' y] & -> & Hj).
    apply list_elem_of_filter in Hj as [_ Hj].
    apply elem_of_zip_seq in Hj as [Hle _]. simpl. lia.
  - simpl in Ha, Hb. apply (IH (S s) a b i j Ha Hb). lia.
Qed.

(** X19. [tokens_to_instances] builds one instance per token tagged [VERB],
    in token order; the labels of an instance have the length of the
    sentence, hold 1 at the position of its verb and 0 elsewhere. *)
Theorem tokens_to_instances_one_hot (Instance : Type)
    (text_to_instance : list Token → list Z → Instance)
    (tokens : list Token) :
  tokens_to_instances Instance text_to_instance tokens
  = (λ i, text_to_instance tokens (one_hot (length tokens) i))
      <$> verb_indices tokens
  ∧ (∀ i, i ∈ verb_indices tokens
          ↔ ∃ t, tokens !! i = Some t ∧ pos_ t = "VERB")
  ∧ increasing (verb_indices tokens)
  ∧ (∀ i, i ∈ verb_indices tokens →
          length (one_hot (length tokens) i) = length tokens
          ∧ one_hot (length tokens) i !! i = Some 1%Z
          ∧ ∀ j, j ≠ i → j < length tokens →
                 one_hot (length tokens) i !! j = Some 0%Z).
Proof.
  assert (Hmem : ∀ i, i ∈ verb_indices tokens
                      ↔ ∃ t, tokens !! i = Some t ∧ pos_ t = "VERB").
  { intros i. unfold verb_indices, enumerate. split.
    - intros ([i' t] & -> & Hit)%list_elem_of_fmap.
      apply list_elem_of_filter in Hit as [Hv Hit].
      apply elem_of_zip_seq in Hit as [_ Hit].
      rewrite Nat.sub_0_r in Hit. by exists t.
    - intros (t & Ht & Hv). apply list_elem_of_fmap. exists (i, t).
      split; [done|]. apply list_elem_of_filter. split; [done|].
      apply elem_of_zip_seq. rewrite Nat.sub_0_r. split; [lia | done]. }
  split; [|split; [exact Hmem|split]].
  - rewrite PredictorFacts.tokens_to_instances_verbs.
    unfold verb_indices, one_hot.
    rewrite zeros_replicate, length_fmap.
    symmetry. by rewrite <- list_fmap_compose.
  - apply filter_zip_seq_increasing.
  - intros i (t & Ht%lookup_lt_Some & _)%Hmem. unfold one_hot.
    split; [by rewrite length_insert, length_replicate|]. split.
    + apply list_lookup_insert_eq. by rewrite length_replicate.
    + intros j Hne Hlt. rewrite list_lookup_insert_ne by done.
      by apply lookup_replicate_2.
Qed.

Example tokens_to_instances_sample :
  tokens_to_instances Samples.instance Samples.text_to_instance
    (Samples.tokenize "He came and left")
  = [ (Samples.tokenize "He came and left", [0; 1; 0; 0]%Z);
      (Samples.tokenize "He came and left", [0; 0; 0; 1]%Z) ].
Proof. reflexivity. Qed.

(** *** Batches *)

(** X20. The instances are cut into batches of the size of the request (the
    number of input sentences): every batch but the last is full, the last
    one is not empty and not larger, and the batches hold the instances in
    order. The model is never run on an empty batch. *)
Theorem dispatched_batches_full (Instance : Type)
    (tokenize : string → list Token)
    (text_to_instance : list Token → list Z → Instance)
    (inputs : list string) :
  concat (_sentence_to_srl_instances Instance tokenize text_to_instance
            <$> inputs) ≠ [] →
  ∃ (full : list (list Instance)) (lst : list Instance),
    dispatched_batches Instance tokenize text_to_instance inputs
    = Ok (fmap (M:=list) Some <$> (full ++ [lst]))
    ∧ Forall (λ batch, length batch = length inputs) full
    ∧ 0 < length lst ≤ length inputs
    ∧ concat full ++ lst
      = concat (_sentence_to_srl_instances Instance tokenize text_to_instance
                  <$> inputs).
Proof.
  intros Hne. unfold dispatched_batches.
  destruct (concat (_sentence_to_srl_instances Instance tokenize
                      text_to_instance <$> inputs)) as [|a flat] eqn:Hflat;
    [done|].
  assert (Hn : 0 < length inputs).
  { destruct inputs; [discriminate | simpl; lia]. }
  unfold make_batches, group_by_count.
  destruct (length inputs) as [|n] eqn:Hlen; [lia|].
  destruct (PredictorFacts.group_by_count_fuel_Some (S n)
              (length (Some <$> a :: flat)) (a :: flat))
    as (full & lst & -> & Hcat & Hall & Hlst);
    [lia | done | by rewrite length_fmap |].
  exists full, lst.
  unfold get_last. rewrite last_snoc. cbn [mbind result_bind].
  rewrite PredictorFacts.strip_padding_Some. unfold set_last.
  destruct (_ ++ [_]) as [|b bs] eqn:Hb.
  { by destruct full. }
  rewrite <- Hb. clear Hb. rewrite length_app. simpl.
  rewrite Nat.add_1_r. simpl.
  rewrite insert_app_r_alt by (by rewrite length_fmap).
  rewrite length_fmap, Nat.sub_diag. simpl.
  split; [by rewrite fmap_app|]. done.
Qed.

Lemma dispatched_batches_full_witness :
  ∃ (full : list (list Samples.instance)) (lst : list Samples.instance),
    dispatched_batches Samples.instance Samples.tokenize
      Samples.text_to_instance ["He came and left"; "The cat sees the mouse"]
    = Ok (fmap (M:=list) Some <$> (full ++ [lst]))
    ∧ Forall (λ batch, length batch = 2) full
    ∧ 0 < length lst ≤ 2.
Proof.
  destruct (dispatched_batches_full Samples.instance Samples.tokenize
              Samples.text_to_instance
              ["He came and left"; "The cat sees the mouse"])
    as (full & lst & Hb & Hfull & Hlst & _).
  - discriminate.
  - exists full, lst. split; [exact Hb|]. split; [exact Hfull | exact Hlst].
Defined.

(** *** A model that returns too few outputs *)

Lemma verb_body_Ok (outs : list Output) (si oi x : nat)
    (rd : list JsonDict) (d : JsonDict) (o : Output) :
  outs !! oi = Some o → rd !! si = Some d →
  verb_body outs si (oi, rd) x = Ok (S oi, <[si := add_output d o]> rd).
Proof.
  intros Ho Hd. unfold verb_body, getitem. rewrite Ho.
  cbn [mbind result_bind].
  rewrite (PredictorFacts.update_Ok rd si d) by done.
  cbn [mbind result_bind].
  pose proof (lookup_lt_Some _ _ _ Hd) as Hsi.
  rewrite (PredictorFacts.update_Ok _ si (set_words (o_words o) d))
    by (by apply list_lookup_insert_eq).
  cbn [mbind result_bind]. by rewrite list_insert_insert_eq.
Qed.

Lemma verb_body_fail (outs : list Output) (si oi x : nat)
    (rd : list JsonDict) :
  outs !! oi = None → verb_body outs si (oi, rd) x = Raise IndexError.
Proof. intros Ho. unfold verb_body, getitem. by rewrite Ho. Qed.

Lemma verb_loop_fail (outs : list Output) (si c : nat) : ∀ start oi rd d,
  rd !! si = Some d →
  oi ≤ length outs < oi + c →
  for_each (verb_body outs si) (seq start c) (oi, rd) = Raise IndexError.
Proof.
  induction c as [|c IH]; intros start oi rd d Hd Hlen; [lia|].
  cbn [seq for_each].
  destruct (outs !! oi) as [o|] eqn:Ho.
  - rewrite (verb_body_Ok outs si oi start rd d o Ho Hd).
    cbn [mbind result_bind].
    apply lookup_lt_Some in Ho.
    eapply IH; [|lia].
    apply list_lookup_insert_eq. by eapply lookup_lt_Some.
  - by rewrite verb_body_fail.
Qed.

Lemma regroup_loop_fail (tokenize : string → list Token)
    (inputs : list string) (outs : list Output) (xs : list string) :
  ∀ cs pre done oi,
    inputs = pre ++ xs →
    length pre = length done →
    length xs = length cs →
    oi ≤ length outs < oi + sum_list cs →
    for_each (sentence_body tokenize inputs outs)
      (zip (seq (length done) (length cs)) cs)
      (oi, done ++ ((λ _, empty_dict) <$> xs))
    = Raise IndexError.
Proof.
  induction xs as [|x xs IH]; intros [|c cs] pre done oi Hin Hpre Hlen Hsum;
    simpl in Hlen, Hsum; try discriminate; [lia|].
  cbn [length seq zip_with for_each].
  assert (Hrd : (done ++ ((λ _, empty_dict) <$> x :: xs)) !! length done
                = Some empty_dict).
  { rewrite fmap_cons. by apply list_lookup_middle. }
  assert (Hnext : ∀ r oi',
             oi' ≤ length outs < oi' + sum_list cs →
             for_each (sentence_body tokenize inputs outs)
               (zip (seq (S (length done)) (length cs)) cs)
               (oi', done ++ r :: ((λ _, empty_dict) <$> xs))
             = Raise IndexError).
  { intros r oi' Hle.
    specialize (IH cs (pre ++ [x]) (done ++ [r]) oi').
    rewrite !length_app, !Nat.add_1_r, <- !app_assoc in IH.
    apply IH; [done | congruence | congruence | done]. }
  destruct (decide (oi + c ≤ length outs)) as [Hfit|Hshort].
  - assert (Hbody : sentence_body tokenize inputs outs
                      (oi, done ++ ((λ _, empty_dict) <$> x :: xs))
                      (length done, c)
                    = Ok (oi + c,
                          done ++ sentence_result tokenize x
                                    (take c (drop oi outs))
                               :: ((λ _, empty_dict) <$> xs))).
    { pose proof (PredictorFacts.regroup_loop tokenize inputs
                    (take (oi + c) outs) [x] [c] pre done oi) as Hone.
      unfold sentence_body. destruct (Nat.eqb_spec c 0) as [->|Hc].
      - assert (Hx : inputs !! length done = Some x).
        { rewrite Hin, <- Hpre. by apply list_lookup_middle. }
        unfold getitem. rewrite Hx. cbn [mbind result_bind].
        rewrite (PredictorFacts.update_Ok _ _ _ _ Hrd). cbn [mbind result_bind].
        rewrite fmap_cons, insert_app_r_alt, Nat.sub_diag by done.
        by rewrite Nat.add_0_r.
      - rewrite (PredictorFacts.verb_loop outs (length done) c 0 oi _ _ Hrd)
          by done.
        rewrite fmap_cons, insert_app_r_alt, Nat.sub_diag by done.
        cbn [insert list_insert].
        rewrite (PredictorFacts.foldl_add_output_empty tokenize x); [done|].
        intros Hnil. apply (f_equal length) in Hnil.
        rewrite length_take, length_drop in Hnil. simpl in Hnil. lia. }
    rewrite Hbody. cbn [mbind result_bind]. apply Hnext. lia.
  - assert (Hc : c ≠ 0) by lia.
    unfold sentence_body. destruct (Nat.eqb_spec c 0) as [|_]; [done|].
    rewrite (verb_loop_fail outs (length done) c 0 oi _ _ Hrd) by lia.
    done.
Qed.

Section TooFew.
Variable Instance : Type.
Variable tokenize : string → list Token.
Variable text_to_instance : list Token → list Z → Instance.
Variable forward_on_instances : list Instance → list Output.

(** X21. When the model returns fewer outputs than it was given instances,
    [predict_batch_json] raises [IndexError]: no shortened result is
    returned. *)
Theorem predict_batch_json_too_few_outputs (inputs : list string)
    (outs : list Output) :
  flattened_outputs Instance tokenize text_to_instance forward_on_instances
    inputs = Ok outs →
  length outs
  < length (concat (_sentence_to_srl_instances Instance tokenize
                      text_to_instance <$> inputs)) →
  predict_batch_json Instance tokenize text_to_instance forward_on_instances
    inputs = Raise IndexError.
Proof.
  intros Houts Hshort.
  destruct (PredictorFacts.flattened_outputs_chunks Instance tokenize
              text_to_instance forward_on_instances inputs)
    as (chunks & Hb & Hcat & Hflat).
  rewrite Hflat in Houts. injection Houts as <-.
  unfold predict_batch_json. unfold dispatched_batches in Hb.
  destruct (concat (_sentence_to_srl_instances Instance tokenize
                      text_to_instance <$> inputs)) as [|a flat] eqn:Hinst.
  { simpl in Hshort. lia. }
  rewrite Hb. cbn [mbind result_bind].
  rewrite PredictorFacts.run_batches_chunks. cbn [mbind result_bind].
  unfold enumerate.
  pose proof (regroup_loop_fail tokenize inputs
                (concat (forward_on_instances <$> chunks)) inputs
                (length <$> (_sentence_to_srl_instances Instance tokenize
                               text_to_instance <$> inputs)) [] [] 0) as Hloop.
  cbn [length app] in Hloop. unfold empty_dict in Hloop.
  rewrite Hloop; [done | done | done | by rewrite !length_fmap |].
  rewrite <- PredictorFacts.length_concat_sum, Hinst. lia.
Qed.

(** X22. When the model returns at least as many outputs as it was given
    instances, [predict_batch_json] returns the regrouping of the flattened
    outputs by the instance counts: the verb entries are built from the
    first outputs, and outputs beyond the number of instances are
    ignored without an error. *)
Theorem predict_batch_json_surplus_outputs (inputs : list string)
    (outs : list Output) :
  let instances_per_sentence :=
    _sentence_to_srl_instances Instance tokenize text_to_instance <$> inputs in
  flattened_outputs Instance tokenize text_to_instance forward_on_instances
    inputs = Ok outs →
  length (concat instances_per_sentence) ≤ length outs →
  ∃ results,
    predict_batch_json Instance tokenize text_to_instance forward_on_instances
      inputs = Ok results
    ∧ results = regroup tokenize inputs (length <$> instances_per_sentence) outs
    ∧ length results = length inputs
    ∧ concat (verbs <$> results)
      = make_verb_dict <$> take (length (concat instances_per_sentence)) outs.
Proof.
  intros ips Houts Hlen.
  destruct (PredictorFacts.flattened_outputs_chunks Instance tokenize
              text_to_instance forward_on_instances inputs)
    as (chunks & Hb & Hcat & Hflat).
  fold ips in Hcat.
  rewrite Hflat in Houts. injection Houts as Houts.
  assert (Hcounts : length inputs = length (length <$> ips)).
  { unfold ips. by rewrite !length_fmap. }
  assert (Hverbs : ∀ xs cs os, length xs = length cs →
            sum_list cs ≤ length os →
            concat (verbs <$> regroup tokenize xs cs os)
            = make_verb_dict <$> take (sum_list cs) os).
  { induction xs as [|x xs IH]; intros [|c cs] os Hl Hs;
      simpl in Hl, Hs; try discriminate; [done|].
    cbn [regroup fmap list_fmap concat].
    rewrite PredictorFacts.verbs_sentence_result.
    fold (fmap (M:=list) verbs (regroup tokenize xs cs (drop c os))).
    rewrite IH; [| congruence | rewrite length_drop; lia].
    rewrite <- fmap_app. f_equal. cbn [sum_list_with]. unfold id at 1.
    by rewrite take_take_drop. }
  exists (regroup tokenize inputs (length <$> ips) outs).
  split; [|split; [done|split]].
  - unfold predict_batch_json. unfold dispatched_batches in Hb.
    fold ips. fold ips in Hb.
    destruct (concat ips) as [|a flat] eqn:Hinst.
    + injection Hb as Hb. destruct chunks; [|discriminate].
      simpl in Houts. subst outs.
      rewrite PredictorFacts.regroup_nil; [done | exact Hcounts].
    + rewrite Hb. cbn [mbind result_bind].
      rewrite PredictorFacts.run_batches_chunks. cbn [mbind result_bind].
      rewrite Houts. unfold enumerate.
      pose proof (PredictorFacts.regroup_loop tokenize inputs outs inputs
                    (length <$> ips) [] [] 0) as Hloop.
      cbn [length app] in Hloop. unfold empty_dict in Hloop.
      rewrite Hloop; [by rewrite drop_0 | done | done | exact Hcounts |].
      rewrite <- PredictorFacts.length_concat_sum, Hinst. simpl in *. lia.
  - rewrite PredictorFacts.length_regroup; [done | exact Hcounts].
  - rewrite Hverbs; [| exact Hcounts
                     | by rewrite <- PredictorFacts.length_concat_sum].
    by rewrite <- PredictorFacts.length_concat_sum.
Qed.

End TooFew.

Lemma predict_batch_json_surplus_outputs_witness :
  ∃ results,
    predict_batch_json Samples.instance Samples.tokenize Samples.text_to_instance
      (λ batch, Samples.model batch ++ Samples.model (take 1 batch))
      Samples.sentences = Ok results
    ∧ length results = 3.
Proof.
  assert (Hex : ∃ outs,
             flattened_outputs Samples.instance Samples.tokenize
               Samples.text_to_instance
               (λ batch, Samples.model batch ++ Samples.model (take 1 batch))
               Samples.sentences = Ok outs
             ∧ 3 ≤ length outs).
  { eexists. split; [vm_compute; reflexivity | simpl; lia]. }
  destruct Hex as (outs & Houts & Hlen).
  destruct (predict_batch_json_surplus_outputs Samples.instance
              Samples.tokenize Samples.text_to_instance
              (λ batch, Samples.model batch ++ Samples.model (take 1 batch))
              Samples.sentences outs Houts Hlen)
    as (results & Hres & _ & Hn & _).
  exists results. split; [exact Hres | exact Hn].
Defined.

Lemma predict_batch_json_too_few_outputs_witness :
  predict_batch_json Samples.instance Samples.tokenize Samples.text_to_instance
    (λ batch, drop 1 (Samples.model batch)) Samples.sentences
  = Raise IndexError.
Proof.
  eapply (predict_batch_json_too_few_outputs Samples.instance Samples.tokenize
            Samples.text_to_instance (λ batch, drop 1 (Samples.model batch))
            Samples.sentences).
  - vm_compute. reflexivity.
  - vm_compute. lia.
Defined.

(** *** [predict_instances] *)

Lemma foldl_append_verb (r : JsonDict) (outs : list Output) :
  foldl (λ results output, append_verb (make_verb_dict output) results) r outs
  = {| verbs := verbs r ++ (make_verb_dict <$> outs); words := words r |}.
Proof.
  revert r. induction outs as [|o outs IH]; intros r.
  - simpl. rewrite app_nil_r. by destruct r.
  - cbn [foldl]. rewrite IH. cbn [append_verb verbs words].
    rewrite fmap_cons, <- app_assoc. done.
Qed.

Section PredictInstances.
Variable Instance : Type.
Variable forward_on_instances : list Instance → list Output.
Hypothesis model_length :
  ∀ batch, length (forward_on_instances batch) = length batch.

Lemma predict_instances_outputs (instances : list Instance)
    (o : Output) (outs : list Output) :
  forward_on_instances instances = o :: outs →
  predict_instances Instance forward_on_instances instances
  = Ok {| verbs := make_verb_dict <$> o :: outs;
          words := Some (o_words o) |}.
Proof.
  intros Hout. unfold predict_instances, getitem. rewrite Hout.
  cbn [lookup list_lookup mbind result_bind].
  by rewrite foldl_append_verb.
Qed.

(** X23. [predict_instances] fails with [IndexError] on an empty list of
    instances; on a non-empty list it returns the words of the first output
    and one verb entry per output, in the order of the outputs. *)
Theorem predict_instances_result (instances : list Instance) :
  predict_instances Instance forward_on_instances [] = Raise IndexError
  ∧ (instances ≠ [] →
     ∃ first_output,
       head (forward_on_instances instances) = Some first_output
       ∧ predict_instances Instance forward_on_instances instances
         = Ok {| verbs := make_verb_dict <$> forward_on_instances instances;
                 words := Some (o_words first_output) |}).
Proof.
  split.
  - unfold predict_instances, getitem. pose proof (model_length []) as Hlen.
    destruct (forward_on_instances []); [done | discriminate].
  - intros Hne. pose proof (model_length instances) as Hlen.
    destruct (forward_on_instances instances) as [|o outs] eqn:Hout.
    { destruct instances; [done | discriminate]. }
    exists o. split; [done|]. rewrite <- Hout.
    rewrite (predict_instances_outputs instances o outs Hout).
    by rewrite Hout.
Qed.

End PredictInstances.

Lemma predict_instances_result_witness :
  predict_instances Samples.instance Samples.model [] = Raise IndexError.
Proof.
  exact (proj1 (predict_instances_result Samples.instance Samples.model
                  PredictorFacts.model_length [])).
Defined.

Section Agreement.
Variable Instance : Type.
Variable tokenize : string → list Token.
Variable text_to_instance : list Token → list Z → Instance.
Variable infer : Instance → Output.

(** X24. For one sentence with at least one verb and a model that treats
    every instance on its own, [predict_batch_json], which runs one
    instance per batch, and [predict_instances], which runs them in one
    batch, return the same result, provided all outputs carry the same
    words. *)
Theorem predict_batch_json_single_sentence (s : string) (ws : list string) :
  let instances :=
    _sentence_to_srl_instances Instance tokenize text_to_instance s in
  instances ≠ [] →
  (∀ x, x ∈ instances → o_words (infer x) = ws) →
  ∃ r,
    predict_batch_json Instance tokenize text_to_instance (fmap infer) [s]
    = Ok [r]
    ∧ predict_instances Instance (fmap infer) instances = Ok r
    ∧ verbs r = (λ x, make_verb_dict (infer x)) <$> instances
    ∧ words r = Some ws.
Proof.
  intros instances Hne Hws.
  destruct (PredictorFacts.predict_batch_json_regroup Instance tokenize
              text_to_instance (fmap infer)
              (λ batch, length_fmap infer batch) [s])
    as (chunks & outs & _ & Hcat & Houts & _ & Hlen & Hres).
  cbn [fmap list_fmap concat] in Hcat, Hlen, Hres.
  fold instances in Hcat, Hlen, Hres.
  rewrite app_nil_r in Hcat, Hlen.
  assert (Hinfer : infer <$> instances = outs).
  { rewrite Houts, <- Hcat. symmetry. apply PredictorFacts.concat_fmap_fmap. }
  assert (Hall : ∀ o, o ∈ outs → o_words o = ws).
  { intros o Ho. rewrite <- Hinfer in Ho.
    apply list_elem_of_fmap in Ho as (x & -> & Hx). by apply Hws. }
  assert (Hverbs : make_verb_dict <$> outs
                   = (λ x, make_verb_dict (infer x)) <$> instances).
  { rewrite <- Hinfer. by rewrite <- list_fmap_compose. }
  exists {| verbs := make_verb_dict <$> outs; words := Some ws |}.
  split; [|split; [|split; [exact Hverbs | done]]].
  - rewrite Hres. cbn [regroup]. rewrite <- Hlen, firstn_all.
    do 2 f_equal. clear Hres Hverbs Houts Hlen.
    destruct outs as [|o1 outs'].
    { apply fmap_nil_inv in Hinfer. contradiction. }
    unfold sentence_result. f_equal.
    destruct (last (o1 :: outs')) as [ol|] eqn:Hl.
    + simpl. f_equal. apply Hall. by eapply last_Some_elem_of.
    + by apply last_None in Hl.
  - destruct outs as [|o1 outs'] eqn:Heq.
    { apply fmap_nil_inv in Hinfer. contradiction. }
    rewrite (predict_instances_outputs Instance (fmap infer) instances
               o1 outs' Hinfer).
    do 3 f_equal. apply Hall. by left.
Qed.

End Agreement.

Lemma predict_batch_json_single_sentence_witness :
  ∃ r,
    predict_batch_json Samples.instance Samples.tokenize
      Samples.text_to_instance (fmap Samples.infer) ["He came and left"]
    = Ok [r]
    ∧ predict_instances Samples.instance (fmap Samples.infer)
        (_sentence_to_srl_instances Samples.instance Samples.tokenize
           Samples.text_to_instance "He came and left") = Ok r
    ∧ words r = Some ["He"; "came"; "and"; "left"].
Proof.
  destruct (predict_batch_json_single_sentence Samples.instance
              Samples.tokenize Samples.text_to_instance Samples.infer
              "He came and left" ["He"; "came"; "and"; "left"])
    as (r & Hb & Hp & _ & Hw).
  - discriminate.
  - intros x Hx. apply list_elem_of_In in Hx. vm_compute in Hx.
    destruct Hx as [<-|[<-|[]]]; reflexivity.
  - exists r. split; [exact Hb|]. split; [exact Hp | exact Hw].
Defined.

End PredictorExtra.

(** ** Building a predictor from an archive *)

Module ArchiveFacts.
Import Archive.

Section FromArchive.
Variable Params : Type.
Variable Reader : Type.
Variable model_type_of : gmap string Params → outcome string.
Variable reader_from_params : Params → outcome Reader.
Variable registered : string → bool.
Variable load_archive : string → outcome (archive Params).

Local Abbreviation from_archive' :=
  (from_archive Params Reader model_type_of reader_from_params registered).
Local Abbreviation from_path' :=
  (from_path Params Reader model_type_of reader_from_params registered
     load_archive).

(** X25. Without a predictor name ([None], the default, or the empty
    string) neither [from_archive] nor [from_path] returns a predictor:
    the look-up of the default name fails, with [NameError] once the model
    type has been read from the configuration. *)
Theorem from_archive_needs_name (a : archive Params) (archive_path : string)
    (predictor_name : option string) (language dataset_reader_to_load : string) :
  falsy predictor_name = true →
  (∃ e, from_archive' a predictor_name language dataset_reader_to_load = Fail e
        ∧ ∀ model_type, model_type_of (config Params a) = Done model_type →
                        e = NameError)
  ∧ ∃ e, from_path' archive_path predictor_name language dataset_reader_to_load
         = Fail e.
Proof.
  intros Hfalsy.
  assert (Hfa : ∀ a', ∃ e,
             from_archive' a' predictor_name language dataset_reader_to_load
             = Fail e
             ∧ ∀ model_type, model_type_of (config Params a') = Done model_type
                             → e = NameError).
  { intros a'. unfold from_archive, resolve_name. rewrite Hfalsy.
    destruct (model_type_of (config Params a')) as [t|e].
    - exists NameError. by split.
    - exists e. split; [done|]. intros t [=]. }
  split; [apply Hfa|].
  unfold from_path. destruct (load_archive archive_path) as [a'|e].
  - destruct (Hfa a') as (e & He & _). by exists e.
  - by exists e.
Qed.

End FromArchive.

Lemma from_archive_needs_name_witness :
  ∃ e, from_archive nat nat (λ _, Done "srl_bert_verbatlas") (λ p, Done p)
         (λ _, true)
         {| config := {["model" := 0; "dataset_reader" := 1]};
            model := Samples.self |}
         None "en_core_web_sm" "validation" = Fail e.
Proof.
  destruct (from_archive_needs_name nat nat (λ _, Done "srl_bert_verbatlas")
              (λ p, Done p) (λ _, true) (λ _, Fail LoadError)
              {| config := {["model" := 0; "dataset_reader" := 1]};
                 model := Samples.self |}
              "model.tar.gz" None "en_core_web_sm" "validation" eq_refl)
    as [(e & He & _) _].
  by exists e.
Defined.

End ArchiveFacts.
